(** * GreenHat IP manager: the block list of [src/iplist.js]

    A shallow embedding of the [IPList] class (the record collection, the
    presence / redundancy / expiry checks, [add], [remove],
    [getBlockDays], [removeExpired] and the address comparator) together
    with the part of [WhoIsHelper] it calls, followed by the properties of
    the specification that bear on them.

    Conventions of the embedding.
    - A JavaScript property that may be missing ([undefined]) or [null] is
      an [option]; the loose tests of the source ([if (x)], [!x],
      [x == null], [x == y]) are the functions [truthyS], [truthyN],
      [isNull] and [looseEq] below.
    - Time stamps ([dtAdded], [dtExpired], [new Date()]) are instants in
      milliseconds ([Z]); the ISO text form, which [new Date(s)] and
      [toISOString] convert back and forth, is not modelled.
    - The functions of [IPList] compute on the contents of the list, read
      in order.  The source mutates a record in place in the restore
      branch of [add] and in the expiry branch of [removeExpired], and the
      loops of [checkRedundancies] and [remove] can push one object twice;
      the module [Shared] gives the list as entries that hold objects, and
      [Shared.add] is [add] with the restore done on the object.  On a
      list that holds no object twice the two agree ([add_contents]).
    - A read [table[name]] of a configuration table finds the entries of
      the table and the members every object inherits from
      [Object.prototype]; [getProperty] tells the three cases apart.
    - [write()] is not modelled.  With [io] on and [writeWorking] off it
      deletes [working] from the records in memory, so that the list must
      be read again before the next call; calls are sequenced as the
      repository does, with [io] off, across a reload, or inside an import
      (an [add] with [imp] set does not write).
    - [syslog] output is not modelled as text; where the kind of message is
      what tells two returns apart, the result carries it. *)

From Stdlib Require Import ZArith Ascii String List Bool Lia Permutation Sorted.
From stdpp Require Import base option list gmap strings.

Local Open Scope string_scope.
Local Open Scope Z_scope.

(** ** JavaScript values *)

Module JS.

(** [if (s)] on a string-valued property: missing, null and the empty
    string are falsy. *)
Definition truthyS (o : option string) : bool :=
  match o with
  | Some s => negb (String.eqb s EmptyString)
  | None => false
  end.

(** [if (n)] on a number-valued property: missing, null and zero are
    falsy. *)
Definition truthyN (o : option Z) : bool :=
  match o with
  | Some n => negb (n =? 0)
  | None => false
  end.

(** [x == null] (true of [null] and [undefined] alone). *)
Definition isNull {A} (o : option A) : bool :=
  match o with Some _ => false | None => true end.

(** [x == y] between two string-valued properties. *)
Definition looseEq (a b : option string) : bool :=
  match a, b with
  | Some x, Some y => String.eqb x y
  | None, None => true
  | _, _ => false
  end.

(** [s.indexOf(c) != -1] for a one-character needle. *)
Fixpoint hasChar (c : ascii) (s : string) : bool :=
  match s with
  | EmptyString => false
  | String d rest => Ascii.eqb d c || hasChar c rest
  end.

(** [s.split(c)] for a one-character separator; the empty string splits
    into one empty field. *)
Fixpoint split (c : ascii) (s : string) : list string :=
  match s with
  | EmptyString => [EmptyString]
  | String d rest =>
      if Ascii.eqb d c then EmptyString :: split c rest
      else match split c rest with
           | w :: ws => String d w :: ws
           | [] => [String d EmptyString]
           end
  end.

(** [s.slice(-n)]: the last [n] characters (all of [s] when it is
    shorter). *)
Definition sliceLast (n : nat) (s : string) : string :=
  String.substring (String.length s - n) n s.

(** [parts.join(sep)] for the empty separator. *)
Definition join (parts : list string) : string :=
  fold_right String.append EmptyString parts.

Definition digit (c : ascii) : option Z :=
  let n := Z.of_nat (nat_of_ascii c) in
  if (48 <=? n) && (n <=? 57) then Some (n - 48) else None.

Fixpoint digits (acc : Z) (s : string) : option Z :=
  match s with
  | EmptyString => Some acc
  | String c rest =>
      match digit c with
      | Some d => digits (acc * 10 + d) rest
      | None => None
      end
  end.

(** [Number(s)] on strings of decimal digits (leading zeros allowed, the
    empty string is [0]).  [None] stands for [NaN]; signs, exponents,
    blanks and hexadecimal forms, which [Number] also reads, are outside
    the embedding and map to [None] too. *)
Definition Number (s : string) : option Z := digits 0 s.

(** The members of [Object.prototype], which every object literal
    inherits: the functions of the language and the accessors of its
    Annex B. *)
Definition prototypeMembers : list string :=
  [ "constructor"; "hasOwnProperty"; "isPrototypeOf";
    "propertyIsEnumerable"; "toLocaleString"; "toString"; "valueOf";
    "__proto__"; "__defineGetter__"; "__defineSetter__";
    "__lookupGetter__"; "__lookupSetter__" ].

Definition inherited (k : string) : bool :=
  existsb (String.eqb k) prototypeMembers.

(** What [table[k]] reads on a table written as an object literal: an
    entry of its own, else an inherited member (a function, or the
    prototype itself for [__proto__]: truthy, and without any field of an
    entry), else [undefined]. *)
Inductive Property (A : Type) :=
| Own (a : A)
| Inherited
| Missing.
Arguments Own {A} a.
Arguments Inherited {A}.
Arguments Missing {A}.

Definition getProperty {A} (table : gmap string A) (k : string) : Property A :=
  match table !! k with
  | Some a => Own a
  | None => if inherited k then Inherited else Missing
  end.

End JS.

Import JS.

(** ** Address ranges *)

(** The derived [working] data of a record.  The source also stores the
    textual bounds [from] and [to]; no test reads them. *)
Record Working := mkWorking { fromDec : Z; toDec : Z }.

(** One decimal octet, [0..255]. *)
Definition octet (s : string) : option Z :=
  match s with
  | EmptyString => None
  | _ => match Number s with
         | Some v => if v <=? 255 then Some v else None
         | None => None
         end
  end.

(** The four octets of a dotted quad. *)
Definition dottedQuad (s : string) : option (Z * Z * Z * Z) :=
  match split "." s with
  | [a; b; c; d] =>
      match octet a, octet b, octet c, octet d with
      | Some x, Some y, Some z, Some w => Some (x, y, z, w)
      | _, _, _, _ => None
      end
  | _ => None
  end.

(** The address as an unsigned 32-bit integer. *)
Definition toDecimal (s : string) : option Z :=
  match dottedQuad s with
  | Some (x, y, z, w) => Some (((x * 256 + y) * 256 + z) * 256 + w)
  | None => None
  end.

Definition prefixSize (s : string) : option Z :=
  match s with
  | EmptyString => None
  | _ => match Number s with
         | Some v => if v <=? 32 then Some v else None
         | None => None
         end
  end.

(** Modelled from the spec: [calculateSubnetMask] of the external package
    [ip-subnet-calculator], which [WhoIsHelper.subnetMask] calls and which
    is not part of the sources.  Following AddressRange.parse: the first and
    last address covered by the prefix, and no result ([null]) when the
    text is not four octets in [0..255] with a prefix length in [0..32]. *)
Definition calculateSubnetMask (ip pfx : string) : option Working :=
  match toDecimal ip, prefixSize pfx with
  | Some n, Some p =>
      let low := Z.shiftl (Z.shiftr n (32 - p)) (32 - p) in
      Some (mkWorking low (low + (Z.shiftl 1 (32 - p) - 1)))
  | _, _ => None
  end.

Module WhoIsHelper.

(** [subnetMask(ip)] of [src/whoishelper.js]. *)
Definition subnetMask (ip : string) : option Working :=
  let ip := if hasChar "/" ip then ip else ip +:+ "/32" in
  let sp := split "/" ip in
  calculateSubnetMask (nth 0 sp EmptyString) (nth 1 sp EmptyString).

End WhoIsHelper.

(** ** Records and configuration *)

Definition Time := Z.

Record Item := mkItem {
  ip : string;
  dtAdded : Time;
  ports : option string;
  days : option Z;
  country : option string;
  org : option string;
  reason : option string;
  status : option Z;
  dtExpired : option Time;
  working : Working
}.

(** The metadata bag handed to [add]; the keys are those [doBlock]
    passes. *)
Record Extra := mkExtra {
  x_dtAdded : option Time;
  x_days : option Z;
  x_country : option string;
  x_org : option string;
  x_reason : option string
}.

(** One entry of [cfg.ports]. *)
Record PortDef := mkPortDef {
  pd_ports : list Z;
  pd_days : option Z;
  pd_reason : option Z
}.

Record Config := mkConfig {
  defaultBlockDays : option Z;
  countryBlockDays : option (gmap string Z);
  cfg_ports : gmap string PortDef;
  reasons : list string;
  expireDeletes : bool
}.

(** A record is active when [entry.status] is falsy. *)
Definition active (e : Item) : bool := negb (truthyN (status e)).

(** A record is expired when its status is [1], the only value the
    source ever sets. *)
Definition expired (e : Item) : bool :=
  match status e with Some s => s =? 1 | None => false end.

(** ** The class [IPList] *)

Module IPList.

(** Which warning [isAlreadyPresent] issued before returning [true]:
    listed ([IP is already listed ...]) or covered
    ([IP ... is already covered ...]). *)
Inductive Presence := Listed | Covered.

(** [isAlreadyPresent(item)], lines 144-180.  [None] is the [false]
    return.  The counter of the source only feeds the message text. *)
Fixpoint isAlreadyPresent (item : Item) (items : list Item) : option Presence :=
  match items with
  | [] => None
  | entry :: rest =>
      if truthyN (status entry) then isAlreadyPresent item rest
      else if String.eqb (ip item) (ip entry) then
        if (negb (truthyS (ports item)) && negb (truthyS (ports entry)))
           || looseEq (ports item) (ports entry)
           || (truthyS (ports item) && negb (truthyS (ports entry)))
        then Some Listed
        else isAlreadyPresent item rest
      else
        if (fromDec (working item) >=? fromDec (working entry))
           && (toDec (working item) <=? toDec (working entry))
        then Some Covered
        else isAlreadyPresent item rest
  end.

(** What one turn of the loop of [checkRedundancies] pushes on
    [filtered] for [entry], lines 195-216. *)
Definition redundancyStep (item entry : Item) : list Item :=
  (if truthyN (status entry) then [entry] else []) ++
  (if String.eqb (ip item) (ip entry) then []
   else if (fromDec (working item) <=? fromDec (working entry))
           && (toDec (working item) >=? toDec (working entry))
   then if isNull (ports item) || looseEq (ports item) (ports entry)
        then [] else [entry]
   else [entry]).

(** [checkRedundancies(item)], lines 187-224: the new value of
    [this.items]. *)
Fixpoint checkRedundancies (item : Item) (items : list Item) : list Item :=
  match items with
  | [] => []
  | entry :: rest => redundancyStep item entry ++ checkRedundancies item rest
  end.

(** The two warnings of [checkRedundancies]. *)
Inductive Redundancy :=
| GreaterScopeOfPorts (entry : Item)
| GreaterScopeOfRange (entry : Item).

(** The warnings [checkRedundancies] sends to [syslog], in order. *)
Fixpoint redundancyWarnings (item : Item) (items : list Item) : list Redundancy :=
  match items with
  | [] => []
  | entry :: rest =>
      (if String.eqb (ip item) (ip entry) then
         if negb (truthyS (ports item)) && truthyS (ports entry)
         then [GreaterScopeOfPorts entry] else []
       else if (fromDec (working item) <=? fromDec (working entry))
               && (toDec (working item) >=? toDec (working entry))
       then if isNull (ports item) || looseEq (ports item) (ports entry)
            then [GreaterScopeOfRange entry] else []
       else []) ++ redundancyWarnings item rest
  end.

(** [checkExpired(ip, ports)], lines 275-292; [None] is [-1]. *)
Fixpoint checkExpired (ip0 : string) (ports0 : option string)
    (items : list Item) : option nat :=
  match items with
  | [] => None
  | item :: rest =>
      if truthyN (status item) && expired item && String.eqb ip0 (ip item) then
        if (truthyS ports0 && negb (truthyS (ports item)))
           || (negb (truthyS ports0) && truthyS (ports item))
        then S <$> checkExpired ip0 ports0 rest
        else if (truthyS (ports item) && truthyS ports0
                 && looseEq (ports item) ports0)
                || (negb (truthyS ports0) && negb (truthyS (ports item)))
        then Some 0%nat
        else S <$> checkExpired ip0 ports0 rest
      else S <$> checkExpired ip0 ports0 rest
  end.

(** How a call of [add] ends.  The source returns nothing; the outcome
    names the [return] taken and the message logged there. *)
Inductive Outcome :=
| UnknownPortGroup   (* line 322 *)
| UnknownReason      (* line 335 *)
| AlreadyPresent     (* line 354 after the listed warning *)
| AlreadyCovered     (* line 354 after the covered warning *)
| Inserted           (* line 362 *)
| Reactivated.       (* line 372 *)

(** A call either completes or throws a [TypeError] (a property read on
    [null]), which the [async] method turns into a rejected promise. *)
Inductive Completion (A : Type) :=
| Normal (a : A)
| TypeError.
Arguments Normal {A} a.
Arguments TypeError {A}.

(** [_addWorking(item)], lines 639-662: the range of [item.ip]; reading
    [sm.ipLowStr] throws when the calculator returned [null]. *)
Definition _addWorking (ip0 : string) : Completion Working :=
  let ipUse := if hasChar "/" ip0 then ip0 else ip0 +:+ "/32" in
  match WhoIsHelper.subnetMask ipUse with
  | Some sm => Normal sm
  | None => TypeError
  end.

(** [cfg.reasons[i]] for a number [i]. *)
Definition reasonAt (cfg : Config) (i : Z) : option string :=
  if i <? 0 then None else reasons cfg !! Z.to_nat i.

(** The first part of [add], lines 304-351: the candidate record. *)
Definition buildItem (cfg : Config) (now : Time) (ip0 : string)
    (ports0 : option string) (extra : option Extra)
    : Completion (Outcome + Item) :=
  match extra with
  | None => TypeError                                 (* extra.dtAdded *)
  | Some x =>
      let dt := match x_dtAdded x with Some d => d | None => now end in
      let checked :=
        match ports0 with
        | Some p =>
            if truthyS ports0 then
              match getProperty (cfg_ports cfg) p with
              | Missing => inl UnknownPortGroup
              | Own pd =>
                  if truthyN (pd_reason pd)
                  then inr (default (-1) (pd_reason pd))
                  else inr (-1)
              | Inherited => inr (-1)       (* no [reason] to read *)
              end
            else inr (-1)
        | None => inr (-1)
        end in
      match checked with
      | inl o => Normal (inl o)
      | inr pReason =>
          let chosen :=
            if negb (pReason =? -1) && negb (truthyS (x_reason x)) then
              if negb (truthyS (reasonAt cfg pReason)) then inl UnknownReason
              else inr (reasonAt cfg pReason)
            else inr (x_reason x) in
          match chosen with
          | inl o => Normal (inl o)
          | inr rsn =>
              match _addWorking ip0 with
              | TypeError => TypeError
              | Normal w =>
                  Normal (inr
                    {| ip := ip0;
                       dtAdded := dt;
                       ports := ports0;
                       days := if truthyN (x_days x) then x_days x else None;
                       country := if truthyS (x_country x) then x_country x else None;
                       org := if truthyS (x_org x) then x_org x else None;
                       reason := if truthyS rsn then rsn else None;
                       status := None;
                       dtExpired := None;
                       working := w |})
              end
          end
      end
  end.

(** The restore branch of [add], lines 364-371: [status], [dtExpired]
    and [days] are deleted, then every key of the candidate is copied
    over. *)
Definition restore (old item : Item) : Item :=
  let keep {A} (new prev : option A) : option A :=
    match new with Some v => Some v | None => prev end in
  {| ip := ip item;
     dtAdded := dtAdded item;
     ports := keep (ports item) (ports old);
     days := days item;
     country := keep (country item) (country old);
     org := keep (org item) (org old);
     reason := keep (reason item) (reason old);
     status := None;
     dtExpired := None;
     working := working item |}.

(** The base address a comparison reads: the text before the first
    slash. *)
Definition baseAddress (s : string) : string :=
  if hasChar "/" s then nth 0 (split "/" s) EmptyString else s.

(** The 12-digit key of a base address, line 609. *)
Definition sortKey (s : string) : option Z :=
  Number (join (map (fun num => sliceLast 3 ("000" +:+ num)) (split "." s))).

(** [_sortIPCompare(a, b)], lines 596-612; [None] is [NaN]. *)
Definition _sortIPCompare (a b : Item) : option Z :=
  let ip1 := baseAddress (ip a) in
  let ip2 := baseAddress (ip b) in
  match sortKey ip1, sortKey ip2 with
  | Some num1, Some num2 => Some (num1 - num2)
  | _, _ => None
  end.

(** [Array.prototype.sort] is stable and reads a [NaN] from the
    comparator as [0]: [a] stays before [b] unless the comparator is
    positive. *)
Definition stays_before (a b : Item) : bool :=
  match _sortIPCompare a b with
  | Some d => d <=? 0
  | None => true
  end.

Fixpoint sortInsert (a : Item) (sorted : list Item) : list Item :=
  match sorted with
  | [] => [a]
  | b :: rest =>
      if stays_before a b then a :: b :: rest else b :: sortInsert a rest
  end.

(** [sortByIP()], lines 585-588, as a stable insertion sort. *)
Definition sortByIP (items : list Item) : list Item :=
  fold_right sortInsert [] items.

(** [add(ip, ports, extra, imp)], lines 302-379, on the contents of the
    list.  The result is the outcome and the contents of [this.items]
    once the call has sorted it; the restore branch rewrites the entry
    found, which is all the object shows through when the list holds it
    once (see [Shared.add] for the object itself). *)
Definition add (cfg : Config) (now : Time) (ip0 : string)
    (ports0 : option string) (extra : option Extra) (imp : bool)
    (items : list Item) : Completion (Outcome * list Item) :=
  match buildItem cfg now ip0 ports0 extra with
  | TypeError => TypeError
  | Normal (inl o) => Normal (o, items)
  | Normal (inr item) =>
      match isAlreadyPresent item items with
      | Some Listed => Normal (AlreadyPresent, items)
      | Some Covered => Normal (AlreadyCovered, items)
      | None =>
          let items1 := checkRedundancies item items in
          let '(o, items2) :=
            match checkExpired ip0 ports0 items1 with
            | None => (Inserted, (items1 ++ [item])%list)
            | Some expChk =>
                match items1 !! expChk with
                | Some tmp => (Reactivated, <[expChk := restore tmp item]> items1)
                | None => (Reactivated, items1)
                end
            end in
          Normal (o, if imp then items2 else sortByIP items2)
      end
  end.

(** One turn of the loop of [remove], lines 393-407: what is pushed on
    [newList] and whether [found] is set. *)
Definition removeStep (ip0 : string) (ports0 : option string) (item : Item)
    : list Item * bool :=
  let kept := if truthyN (status item) then [item] else [] in
  if String.eqb (ip item) ip0 then
    if (negb (truthyS ports0) && negb (truthyS (ports item)))
       || (truthyS (ports item) && looseEq ports0 (ports item))
    then (kept, true)
    else ((kept ++ [item])%list, false)
  else ((kept ++ [item])%list, false).

Fixpoint removeLoop (ip0 : string) (ports0 : option string)
    (items : list Item) : list Item * bool :=
  match items with
  | [] => ([], false)
  | item :: rest =>
      let '(pushed, hit) := removeStep ip0 ports0 item in
      let '(newList, found) := removeLoop ip0 ports0 rest in
      ((pushed ++ newList)%list, hit || found)
  end.

(** [remove(ip, ports)], lines 387-416: the new value of [this.items]
    and the flag [found] that selects the message. *)
Definition remove (ip0 : string) (ports0 : option string)
    (items : list Item) : list Item * bool :=
  let '(newList, found) := removeLoop ip0 ports0 items in
  if found then (newList, true) else (items, false).

(** [getBlockDays(item)], lines 424-441.  A port group that [cfg.ports]
    only inherits has no [days], like one it does not list.  The result
    is a number, the periods of the configuration being numbers; a
    country that names a member every object inherits is outside the
    embedding (line 433 then reads that member), see [countryListed]. *)
Definition getBlockDays (cfg : Config) (item : Item) : Z :=
  let blockdays := 0 in
  let blockdays :=
    if truthyN (defaultBlockDays cfg) then default 0 (defaultBlockDays cfg)
    else blockdays in
  if truthyN (days item) then default 0 (days item)
  else
    let byCountry :=
      match countryBlockDays cfg, country item with
      | Some tbl, Some c => if truthyS (country item) then tbl !! c else None
      | _, _ => None
      end in
    if truthyN byCountry then default 0 byCountry
    else
      let byPorts :=
        match ports item with
        | Some p =>
            if truthyS (ports item) then
              match cfg_ports cfg !! p with
              | Some pd => pd_days pd
              | None => None
              end
            else None
        | None => None
        end in
      if truthyN byPorts then default 0 byPorts else blockdays.

(** The expiry branch of [removeExpired], lines 468-469. *)
Definition expire (dtNow : Time) (item : Item) : Item :=
  {| ip := ip item; dtAdded := dtAdded item; ports := ports item;
     days := days item; country := country item; org := org item;
     reason := reason item;
     status := Some 1; dtExpired := Some dtNow;
     working := working item |}.

(** The loop of [removeExpired], lines 453-476.  [new Date()] is read
    afresh for each record: [clock k] is the reading at the record of
    index [k]. *)
Fixpoint expiryLoop (cfg : Config) (clock : nat -> Time) (k : nat)
    (items : list Item) : list Item * nat :=
  match items with
  | [] => ([], 0%nat)
  | item :: rest =>
      let blockdays := getBlockDays cfg item in
      let '(newList, rem) := expiryLoop cfg clock (S k) rest in
      if blockdays =? 0 then (item :: newList, rem)
      else
        let dtNow := clock k in
        let elapsed := dtNow - dtAdded item in
        let blockedMilliseconds := 86400000 * blockdays in
        if elapsed <? blockedMilliseconds then (item :: newList, rem)
        else if negb (expireDeletes cfg)
             then (expire dtNow item :: newList, S rem)
             else (newList, S rem)
  end.

(** [removeExpired(test)], lines 448-487: the new value of [this.items]
    and the count [rem] that is logged. *)
Definition removeExpired (cfg : Config) (clock : nat -> Time)
    (items : list Item) : list Item * nat :=
  let '(newList, rem) := expiryLoop cfg clock 0 items in
  if (0 <? rem)%nat then (newList, rem) else (items, rem).

End IPList.

Import IPList.

(** ** The list as shared objects *)

Module Shared.

(** An entry of [this.items] refers to an object.  A cell pairs the
    identity of the object with its content; two cells of one identity
    are two entries that hold the same object. *)
Definition Cell : Type := (nat * Item)%type.

(** The records read through the entries, in order. *)
Definition contents (s : list Cell) : list Item := map snd s.

Definition holds (o : nat) (c : Cell) : bool := Nat.eqb (fst c) o.

(** The number of entries that hold the object [o]. *)
Definition held (o : nat) (s : list Cell) : nat :=
  length (List.filter (holds o) s).

(** An object has one content, whichever entry it is read through. *)
Definition consistent (s : list Cell) : Prop :=
  forall c1 c2, In c1 s -> In c2 s -> fst c1 = fst c2 -> snd c1 = snd c2.

(** [checkRedundancies(item)]: every push of [redundancyStep] pushes the
    entry itself, so a record pushed twice is one object held twice. *)
Fixpoint checkRedundancies (item : Item) (s : list Cell) : list Cell :=
  match s with
  | [] => []
  | c :: rest =>
      (map (pair (fst c)) (redundancyStep item (snd c))
       ++ checkRedundancies item rest)%list
  end.

(** An assignment to the fields of the object [o]: every entry that
    holds it shows the new content. *)
Definition overwrite (o : nat) (v : Item) (s : list Cell) : list Cell :=
  map (fun c => if holds o c then (o, v) else c) s.

(** The identity of an object created by the call: one no entry
    holds. *)
Definition fresh (s : list Cell) : nat := S (list_max (map fst s)).

Fixpoint sortInsert (a : Cell) (sorted : list Cell) : list Cell :=
  match sorted with
  | [] => [a]
  | b :: rest =>
      if stays_before (snd a) (snd b) then a :: b :: rest
      else b :: sortInsert a rest
  end.

(** [sortByIP()] moves the entries; the comparator reads their
    contents. *)
Definition sortByIP (s : list Cell) : list Cell := fold_right sortInsert [] s.

Definition settled (imp : bool) (s : list Cell) : list Cell :=
  if imp then s else sortByIP s.

(** [add(ip, ports, extra, imp)], lines 302-379, on the entries.  The
    candidate is a new object; the restore branch, lines 364-371, deletes
    and assigns fields of the object [this.items[expChk]].  The result is
    the list as the call leaves it before the [write()] that ends a call
    outside an import. *)
Definition add (cfg : Config) (now : Time) (ip0 : string)
    (ports0 : option string) (extra : option Extra) (imp : bool)
    (s : list Cell) : Completion (Outcome * list Cell) :=
  match buildItem cfg now ip0 ports0 extra with
  | TypeError => TypeError
  | Normal (inl o) => Normal (o, s)
  | Normal (inr item) =>
      match isAlreadyPresent item (contents s) with
      | Some Listed => Normal (AlreadyPresent, s)
      | Some Covered => Normal (AlreadyCovered, s)
      | None =>
          let s1 := checkRedundancies item s in
          let '(o, s2) :=
            match checkExpired ip0 ports0 (contents s1) with
            | None => (Inserted, (s1 ++ [(fresh s, item)])%list)
            | Some expChk =>
                match s1 !! expChk with
                | Some (ob, tmp) =>
                    (Reactivated, overwrite ob (restore tmp item) s1)
                | None => (Reactivated, s1)
                end
            end in
          Normal (o, if imp then s2 else sortByIP s2)
      end
  end.

(** A list as [read] builds it: one new object for each record. *)
Definition load (items : list Item) : list Cell :=
  combine (seq 0 (length items)) items.

End Shared.

(** ** Vocabulary of the specification *)

(** A port-scope is absent when the source reads it as falsy. *)
Definition unscoped (p : option string) : Prop := truthyS p = false.
Definition scoped (p : option string) : Prop := truthyS p = true.

(** [contains(outer, inner)] of AddressRange. *)
Definition contains (outer inner : Working) : bool :=
  (fromDec outer <=? fromDec inner) && (toDec inner <=? toDec outer).

(** Port-scopes compatible for the presence check: both absent, both
    equal, or the candidate scoped while the existing record is not. *)
Definition presenceCompatible (cand existing : option string) : Prop :=
  (unscoped cand /\ unscoped existing)
  \/ cand = existing
  \/ (scoped cand /\ unscoped existing).

(** Port-scopes that match exactly: both absent, or both present and
    equal. *)
Definition scopeExact (cand existing : option string) : Prop :=
  (unscoped cand /\ unscoped existing)
  \/ (scoped cand /\ scoped existing /\ cand = existing).

(** The active records held for one address string. *)
Definition activeFor (ip0 : string) (e : Item) : bool :=
  active e && String.eqb (ip e) ip0.

Definition count (f : Item -> bool) (l : list Item) : nat :=
  length (List.filter f l).

(** An active record survives the insertion of [item]: it is on another
    address and is not both contained in the candidate's range and under a
    port-scope the candidate takes over. *)
Definition survives (item e : Item) : bool :=
  active e
  && negb (String.eqb (ip item) (ip e))
  && negb (contains (working item) (working e)
           && (isNull (ports item) || looseEq (ports item) (ports e))).

(** The list [add] leaves: sorted unless the call is part of an
    import. *)
Definition settled (imp : bool) (l : list Item) : list Item :=
  if imp then l else sortByIP l.


(** A configuration and a metadata bag for the examples: one port group
    [ssh], no default periods. *)
Definition cfgSsh : Config :=
  {| defaultBlockDays := None;
     countryBlockDays := None;
     cfg_ports := {[ "ssh" := mkPortDef [22] None None ]};
     reasons := [];
     expireDeletes := false |}.

Definition noExtra : Extra := mkExtra None None None None None.

(** The list after a call, or the empty list if it threw. *)
Definition itemsOf (r : Completion (Outcome * list Item)) : list Item :=
  match r with
  | Normal (_, l) => l
  | TypeError => []
  end.

(** Records of the examples. *)
Definition host (ip0 : string) (p : option string) (n : Z) : Item :=
  {| ip := ip0; dtAdded := 0; ports := p; days := None; country := None;
     org := None; reason := None; status := None; dtExpired := None;
     working := mkWorking n n |}.

Definition block (ip0 : string) (p : option string) (lo hi : Z) : Item :=
  {| ip := ip0; dtAdded := 0; ports := p; days := None; country := None;
     org := None; reason := None; status := None; dtExpired := None;
     working := mkWorking lo hi |}.

(** A /24 held for [ssh] only, followed by one of its hosts held for all
    ports: the list two insertions build (see [coveredFirst_built]). *)
Definition coveredFirst : list Item :=
  [ block "10.0.0.0/24" (Some "ssh") 167772160 167772415;
    host "10.0.0.5" None 167772165 ].

(** An expired record, as [removeExpired] leaves it. *)
Definition lapsed (ip0 : string) (p : option string) (n : Z) (t : Time) : Item :=
  expire t (host ip0 p n).

(** The records held for one address string, active or not. *)
Definition heldFor (ip0 : string) (e : Item) : bool := String.eqb (ip e) ip0.

(** The scenario of test 9 of [doTest]: 3.0.115.255 entered on
    2021-02-21T10:27:53.441Z for three days, then swept three days
    later. *)
Definition t_2021_02_21 : Time := 1613903273441.

Definition test9Swept : list Item :=
  fst (removeExpired cfgSsh (fun _ => t_2021_02_21 + 3 * 86400000)
         (itemsOf (add cfgSsh 0 "3.0.115.255" None
                     (Some (mkExtra (Some t_2021_02_21) (Some 3) None None None))
                     false []))).

(** The configuration of the examples under the delete-on-expiry
    policy. *)
Definition cfgDeletes : Config :=
  {| defaultBlockDays := None;
     countryBlockDays := None;
     cfg_ports := {[ "ssh" := mkPortDef [22] None None ]};
     reasons := [];
     expireDeletes := true |}.

(** The record of test 9 once swept: status [1], expired three days
    after it was entered. *)
Definition test9Record (expiredAt : Time) : Item :=
  {| ip := "3.0.115.255"; dtAdded := t_2021_02_21; ports := None;
     days := Some 3; country := None; org := None; reason := None;
     status := Some 1; dtExpired := Some expiredAt;
     working := mkWorking 50361343 50361343 |}.

(** The list after a call on entries, or the empty list if it threw. *)
Definition cellsOf (r : Completion (Outcome * list Shared.Cell))
    : list Shared.Cell :=
  match r with
  | Normal (_, s) => s
  | TypeError => []
  end.

(** The list an import leaves when 1.1.1.1 is entered over an expired
    record of 2.2.2.2: the redundancy step has pushed the expired record
    twice, so two entries hold it (see [heldTwice_built]). *)
Definition heldTwice : list Shared.Cell :=
  [ (0%nat, lapsed "2.2.2.2" None 33686018 5);
    (0%nat, lapsed "2.2.2.2" None 33686018 5);
    (1%nat, host "1.1.1.1" None 16843009) ].

(** The list of [heldTwice] after 2.2.2.2 has been entered for [ssh]. *)
Definition heldTwiceScoped : list Shared.Cell :=
  [ (0%nat, lapsed "2.2.2.2" None 33686018 5);
    (0%nat, lapsed "2.2.2.2" None 33686018 5);
    (1%nat, host "1.1.1.1" None 16843009);
    (2%nat, host "2.2.2.2" (Some "ssh") 33686018) ].

(** A configuration with two port groups. *)
Definition cfgWebSsh : Config :=
  {| defaultBlockDays := None;
     countryBlockDays := None;
     cfg_ports := {[ "ssh" := mkPortDef [22] None None;
                     "web" := mkPortDef [80; 443] None None ]};
     reasons := [];
     expireDeletes := false |}.

(** A /24 held for [web], followed by one of its hosts held for [ssh]:
    the list two insertions build (see [coveredScoped_built]). *)
Definition coveredScoped : list Shared.Cell :=
  [ (2%nat, block "10.0.0.0/24" (Some "web") 167772160 167772415);
    (1%nat, host "10.0.0.5" (Some "ssh") 167772165) ].

(** A period that is present and nonzero. *)
Definition nonzero (o : option Z) : option Z :=
  match o with
  | Some d => if d =? 0 then None else Some d
  | None => None
  end.

(** The precedence as the specification words it: a country or a port
    group is configured when the table has an entry for it, whatever the
    period. *)
Definition statedCountryDefault (cfg : Config) (r : Item) : option Z :=
  match country r, countryBlockDays cfg with
  | Some c, Some tbl => tbl !! c
  | _, _ => None
  end.

Definition statedPortGroupDefault (cfg : Config) (r : Item) : option Z :=
  match ports r with
  | Some p =>
      match cfg_ports cfg !! p with
      | Some pd => pd_days pd
      | None => None
      end
  | None => None
  end.

(** The first source that applies, in order; [0] when none does. *)
Fixpoint firstApplicable (sources : list (option Z)) : Z :=
  match sources with
  | [] => 0
  | Some d :: _ => d
  | None :: rest => firstApplicable rest
  end.

Definition statedTTLDays (cfg : Config) (r : Item) : Z :=
  firstApplicable
    [ nonzero (days r);
      statedCountryDefault cfg r;
      statedPortGroupDefault cfg r;
      defaultBlockDays cfg ].

(** The precedence as amended: a country or a port group counts when set
    (not the empty string) and the table holds a nonzero period for
    it. *)
Definition countryDefault (cfg : Config) (r : Item) : option Z :=
  match country r, countryBlockDays cfg with
  | Some c, Some tbl =>
      if String.eqb c EmptyString then None else nonzero (tbl !! c)
  | _, _ => None
  end.

Definition portGroupDefault (cfg : Config) (r : Item) : option Z :=
  match ports r with
  | Some p =>
      if String.eqb p EmptyString then None
      else match cfg_ports cfg !! p with
           | Some pd => nonzero (pd_days pd)
           | None => None
           end
  | None => None
  end.

Definition resolveTTLDays (cfg : Config) (r : Item) : Z :=
  firstApplicable
    [ nonzero (days r);                 (* 1: the record's own days *)
      countryDefault cfg r;             (* 2: the country's default *)
      portGroupDefault cfg r;           (* 3: the port group's default *)
      nonzero (defaultBlockDays cfg) ]. (* 4: the global default *)

(** Country [XX] at ten days, port group [ssh] at five. *)
Definition cfgPrecedence : Config :=
  {| defaultBlockDays := Some 30;
     countryBlockDays := Some {[ "XX" := 10 ]};
     cfg_ports := {[ "ssh" := mkPortDef [22] (Some 5) None ]};
     reasons := [];
     expireDeletes := false |}.

(** Country [XX] configured at zero days, port group [ssh] at five. *)
Definition cfgZeroCountry : Config :=
  {| defaultBlockDays := Some 30;
     countryBlockDays := Some {[ "XX" := 0 ]};
     cfg_ports := {[ "ssh" := mkPortDef [22] (Some 5) None ]};
     reasons := [];
     expireDeletes := false |}.

(** The country of a record is not read off the prototype of the
    table. *)
Definition countryListed (r : Item) : Prop :=
  forall c, country r = Some c -> inherited c = false.

(** The base address of a record as an unsigned 32-bit integer. *)
Definition addressOf (e : Item) : option Z := toDecimal (baseAddress (ip e)).

(** Ascending order of two records by that integer. *)
Definition ascending (a b : Item) : Prop :=
  exists na nb, addressOf a = Some na /\ addressOf b = Some nb /\ na <= nb.

(** ** Further functions of [IPList] *)

Module IPListViews.

(** [isCIDR(ip)], lines 130-136. *)
Definition isCIDR (ip0 : string) : bool := hasChar "/" ip0.

(** [_addWorking] on a stored record: the range is computed from the
    address and written over whatever [working] the record carried. *)
Definition setWorking (item : Item) (w : Working) : Item :=
  {| ip := ip item; dtAdded := dtAdded item; ports := ports item;
     days := days item; country := country item; org := org item;
     reason := reason item; status := status item;
     dtExpired := dtExpired item; working := w |}.

(** The loop of [read], lines 86-88, under the [catch] of line 93: a
    [TypeError] of [_addWorking] ends the loop and the records pushed so
    far stay in [this.items]. *)
Fixpoint readLoop (parsed : list Item) : list Item :=
  match parsed with
  | [] => []
  | item :: rest =>
      match _addWorking (ip item) with
      | Normal w => setWorking item w :: readLoop rest
      | TypeError => []
      end
  end.

(** [read()], lines 69-97.  [file] is the parsed content of the file,
    [None] when the file is missing or is not JSON (both are logged and
    leave the list empty).  With [readWorking] the records are taken as
    they are; the record type makes them carry their range. *)
Definition read (io readWorking : bool) (file : option (list Item))
    (items : list Item) : list Item :=
  if negb io then items
  else match file with
       | None => []
       | Some parsed => if readWorking then parsed else readLoop parsed
       end.






(** [x.slice(-n)]: the last [n] characters; [-0] is [0], so for [n = 0]
    the whole string. *)
Definition sliceNeg (n : nat) (s : string) : string :=
  match n with
  | O => s
  | S _ => String.substring (String.length s - n) n s
  end.

(** [_pad(pad, str, padLeft)], lines 520-528; [None] is an [undefined]
    [str]. *)
Definition _pad (pad : string) (str : option string) (padLeft : bool)
    : string :=
  match str with
  | None => pad
  | Some s =>
      if padLeft then sliceNeg (String.length pad) (pad +:+ s)
      else String.substring 0 (String.length pad) (s +:+ pad)
  end.

(** [Array.prototype.sort] under a comparator, as in [sortByIP]: stable,
    a [NaN] read as [0]. *)
Fixpoint sortInsertBy (cmp : Item -> Item -> option Z) (a : Item)
    (sorted : list Item) : list Item :=
  match sorted with
  | [] => [a]
  | b :: rest =>
      if match cmp a b with Some d => d <=? 0 | None => true end
      then a :: b :: rest
      else b :: sortInsertBy cmp a rest
  end.

Definition sortBy (cmp : Item -> Item -> option Z) (items : list Item)
    : list Item :=
  fold_right (sortInsertBy cmp) [] items.

(** [_sortDateCompare(a, b)], lines 628-631.  [Date(x)] without [new]
    ignores its argument and returns the current time as text; the
    difference of two such texts is [NaN]. *)
Definition _sortDateCompare (a b : Item) : option Z := None.

(** [sortByDate()], lines 617-620. *)
Definition sortByDate (items : list Item) : list Item :=
  sortBy _sortDateCompare items.

End IPListViews.

Import IPListViews.

(** ** The export of [IPManage] *)

Module IPManage.

(** The loop of [doPrintCsf]: the records a line is composed for, in
    order; [None] when the function returns at a record whose port group
    the lookup of [cfg.ports] does not find, before anything is printed
    or written.  The text of the lines is not modelled; composing one
    formats the expiry date of the record, which throws for a date that
    [Date] cannot hold (see [datable]). *)
Fixpoint csfLoop (cfg : Config) (items : list Item) : option (list Item) :=
  match items with
  | [] => Some []
  | item :: rest =>
      if truthyN (status item) then csfLoop cfg rest
      else if truthyS (ports item)
              && match ports item with
                 | Some g =>
                     match getProperty (cfg_ports cfg) g with
                     | Missing => true
                     | _ => false
                     end
                 | None => false
                 end
      then None
      else cons item <$> csfLoop cfg rest
  end.

(** [doPrintCsf()]: the list is sorted in place, then exported.  The
    result is the new value of [this.blocks.items] and the records
    exported. *)
Definition doPrintCsf (cfg : Config) (items : list Item)
    : list Item * option (list Item) :=
  let sorted := sortByIP items in
  (sorted, csfLoop cfg sorted).

End IPManage.

Import IPManage.

(** ** Vocabulary of the further properties *)

(** The test of [remove] for one record, lines 398-399. *)
Definition removeMatch (ip0 : string) (p : option string) (e : Item) : bool :=
  String.eqb (ip e) ip0
  && ((negb (truthyS p) && negb (truthyS (ports e)))
      || (truthyS (ports e) && looseEq p (ports e))).

(** At most one active object for each address string: the entries that
    show an active record of an address hold one object. *)
Definition uniqueObject (s : list Shared.Cell) : Prop :=
  forall a c1 c2, In c1 s -> In c2 s ->
    activeFor a (snd c1) = true -> activeFor a (snd c2) = true ->
    fst c1 = fst c2.

(** At most one active record for each address string. *)
Definition uniqueActive (items : list Item) : Prop :=
  forall a, (count (activeFor a) items <= 1)%nat.

(** The range of every record is the one its address gives. *)
Definition coherent (items : list Item) : Prop :=
  forall e, In e items -> _addWorking (ip e) = Normal (working e).

(** The port group of a record, if it names one, is one the lookup of
    [cfg.ports] finds. *)
Definition groupKnown (cfg : Config) (e : Item) : Prop :=
  forall g, ports e = Some g -> truthyS (ports e) = true ->
            getProperty (cfg_ports cfg) g <> Missing.

(** Every active record names a port group the lookup finds, or none. *)
Definition groupsKnown (cfg : Config) (items : list Item) : Prop :=
  forall e, In e items -> active e = true -> groupKnown cfg e.

(** The range of time values of [Date], less two days for the local-time
    arithmetic of [setMilliseconds]. *)
Definition dateRange : Z := 8640000000000000 - 2 * 86400000.

(** The line of a record can be composed: its period is a number (the
    country is not read off the prototype) and the dates to format are
    within the range of [Date]. *)
Definition datable (cfg : Config) (e : Item) : Prop :=
  countryListed e
  /\ - dateRange <= dtAdded e <= dateRange
  /\ - dateRange <= dtAdded e + 86400000 * getBlockDays cfg e <= dateRange.

(** A record is due at an instant: its period is nonzero and has run
    out. *)
Definition due (cfg : Config) (now : Time) (e : Item) : bool :=
  negb (getBlockDays cfg e =? 0)
  && negb (now - dtAdded e <? 86400000 * getBlockDays cfg e).

(** A record has a dotted-quad base address. *)
Definition dotted (e : Item) : Prop := is_Some (addressOf e).

(** The records whose base address is the integer [n]. *)
Definition atAddress (n : Z) (e : Item) : bool :=
  match addressOf e with
  | Some m => m =? n
  | None => false
  end.


(** * Properties *)

(** ** Loose tests *)

Lemma looseEq_eq (a b : option string) : looseEq a b = true <-> a = b.
Proof.
  destruct a as [x|], b as [y|]; simpl; split; try congruence; try tauto.
  - intros H. apply String.eqb_eq in H. now subst.
  - intros [= ->]. apply String.eqb_refl.
Qed.

Lemma presenceCompatible_test (cand existing : option string) :
  presenceCompatible cand existing <->
  (negb (truthyS cand) && negb (truthyS existing))
    || looseEq cand existing
    || (truthyS cand && negb (truthyS existing)) = true.
Proof.
  unfold presenceCompatible, unscoped, scoped.
  rewrite !orb_true_iff, !andb_true_iff, !negb_true_iff, looseEq_eq.
  tauto.
Qed.

Lemma contains_test (outer inner : Working) :
  (fromDec inner >=? fromDec outer) && (toDec inner <=? toDec outer)
  = contains outer inner.
Proof. unfold contains. now rewrite Z.geb_leb. Qed.

Lemma contains_test_rev (outer inner : Working) :
  (fromDec outer <=? fromDec inner) && (toDec outer >=? toDec inner)
  = contains outer inner.
Proof. unfold contains. now rewrite Z.geb_leb. Qed.

Lemma scopeExact_refl (p : option string) : scopeExact p p.
Proof.
  unfold scopeExact, unscoped, scoped. destruct (truthyS p); auto.
Qed.

Lemma scopeExact_compatible (p q : option string) :
  scopeExact p q -> presenceCompatible p q.
Proof.
  intros [[Hu Hu']|(_ & _ & Heq)]; [left | right; left]; auto.
Qed.

(** ** The presence check *)

(** The check returns [false] exactly when no active record blocks the
    candidate. *)
Lemma isAlreadyPresent_None (item : Item) (items : list Item) :
  isAlreadyPresent item items = None <->
  (forall e, In e items -> active e = true ->
     (ip e = ip item -> ~ presenceCompatible (ports item) (ports e))
     /\ (ip e <> ip item -> contains (working e) (working item) = false)).
Proof.
  induction items as [|entry rest IH]; simpl.
  - split; [intros _ e [] | reflexivity].
  - unfold active in *. rewrite contains_test.
    destruct (truthyN (status entry)) eqn:Hst.
    + rewrite IH. split.
      * intros H e [<-|Hin] Ha; [rewrite Hst in Ha; discriminate | now apply H].
      * intros H e Hin. apply H. now right.
    + destruct (String.eqb (ip item) (ip entry)) eqn:Hip.
      * apply String.eqb_eq in Hip.
        destruct (_ || _ || _) eqn:Hc.
        -- split; [discriminate|]. intros H.
           destruct (H entry (or_introl eq_refl)) as [H1 _]; [now rewrite Hst|].
           exfalso. apply H1; [congruence|]. now apply presenceCompatible_test.
        -- rewrite IH. split.
           ++ intros H e [<-|Hin] Ha; [|now apply H]. split.
              ** intros _ Hp. apply presenceCompatible_test in Hp. congruence.
              ** congruence.
           ++ intros H e Hin. apply H. now right.
      * apply String.eqb_neq in Hip.
        destruct (contains (working entry) (working item)) eqn:Hc.
        -- split; [discriminate|]. intros H.
           destruct (H entry (or_introl eq_refl)) as [_ H2]; [now rewrite Hst|].
           rewrite H2 in Hc; [discriminate | congruence].
        -- rewrite IH. split.
           ++ intros H e [<-|Hin] Ha; [|now apply H]. split; congruence.
           ++ intros H e Hin. apply H. now right.
Qed.

(** With no covering record of another address in the list, a blocking
    record of the same address gives the listed warning. *)
Lemma isAlreadyPresent_Listed (item : Item) (items : list Item) :
  (exists e, In e items /\ active e = true /\ ip e = ip item
             /\ presenceCompatible (ports item) (ports e)) ->
  (forall e, In e items -> active e = true -> ip e <> ip item ->
             contains (working e) (working item) = false) ->
  isAlreadyPresent item items = Some Listed.
Proof.
  induction items as [|entry rest IH]; simpl.
  - intros (e & [] & _).
  - intros (e & Hin & Ha & Hip & Hc) Hno. unfold active in *.
    assert (Hrest : (exists e, In e rest /\ negb (truthyN (status e)) = true
              /\ ip e = ip item /\ presenceCompatible (ports item) (ports e))
            -> isAlreadyPresent item rest = Some Listed).
    { intros H. apply IH; [exact H|]. intros e' Hin'. apply Hno. now right. }
    destruct (truthyN (status entry)) eqn:Hst.
    + apply Hrest. destruct Hin as [<-|Hin]; [rewrite Hst in Ha; discriminate|].
      eauto.
    + destruct (String.eqb (ip item) (ip entry)) eqn:Heq.
      * destruct (_ || _ || _) eqn:Hc'; [reflexivity|].
        apply Hrest. destruct Hin as [<-|Hin]; [|eauto].
        apply presenceCompatible_test in Hc. congruence.
      * apply String.eqb_neq in Heq. rewrite contains_test.
        rewrite (Hno entry (or_introl eq_refl)); [| now rewrite Hst | congruence].
        apply Hrest. destruct Hin as [<-|Hin]; [congruence | eauto].
Qed.

(** A blocking record of the same address always makes the check
    succeed, with one warning or the other. *)
Lemma isAlreadyPresent_blocked (item : Item) (items : list Item) :
  (exists e, In e items /\ active e = true /\ ip e = ip item
             /\ presenceCompatible (ports item) (ports e)) ->
  isAlreadyPresent item items <> None.
Proof.
  intros (e & Hin & Ha & Hip & Hc) HN.
  rewrite isAlreadyPresent_None in HN.
  destruct (HN e Hin Ha) as [H _]. now apply H.
Qed.

(** With every active record on another address, a containing record
    gives the covered warning. *)
Lemma isAlreadyPresent_Covered (item : Item) (items : list Item) :
  (forall e, In e items -> active e = true -> ip e <> ip item) ->
  (exists e, In e items /\ active e = true
             /\ contains (working e) (working item) = true) ->
  isAlreadyPresent item items = Some Covered.
Proof.
  induction items as [|entry rest IH]; simpl.
  - intros _ (e & [] & _).
  - intros Hne (e & Hin & Ha & Hc). unfold active in *.
    assert (Hrest : In e rest -> isAlreadyPresent item rest = Some Covered).
    { intros H. apply IH; [|eauto]. intros e' Hin'. apply Hne. now right. }
    destruct (truthyN (status entry)) eqn:Hst.
    + apply Hrest. destruct Hin as [<-|Hin]; [rewrite Hst in Ha; discriminate|].
      exact Hin.
    + assert (Hip : String.eqb (ip item) (ip entry) = false).
      { apply String.eqb_neq. intros Heq.
        apply (Hne entry (or_introl eq_refl)); [now rewrite Hst | congruence]. }
      rewrite Hip, contains_test.
      destruct (contains (working entry) (working item)) eqn:Hc'; [reflexivity|].
      apply Hrest. destruct Hin as [<-|Hin]; [congruence | exact Hin].
Qed.

(** The check reads the address, the port-scope and the range of the
    candidate only. *)
Lemma isAlreadyPresent_ext (item item' : Item) (items : list Item) :
  ip item' = ip item -> ports item' = ports item ->
  working item' = working item ->
  isAlreadyPresent item' items = isAlreadyPresent item items.
Proof.
  intros Hip Hp Hw. induction items as [|entry rest IH]; simpl; [reflexivity|].
  now rewrite Hip, Hp, Hw, IH.
Qed.

(** The scan stops at the first active record that blocks the
    candidate. *)
Lemma isAlreadyPresent_app (item : Item) (pre rest : list Item) :
  isAlreadyPresent item pre = None ->
  isAlreadyPresent item (pre ++ rest) = isAlreadyPresent item rest.
Proof.
  induction pre as [|entry pre IH]; simpl; [reflexivity|].
  destruct (truthyN (status entry)); [exact IH|].
  destruct (String.eqb (ip item) (ip entry)).
  - destruct (_ || _ || _); [discriminate | exact IH].
  - destruct (_ && _); [discriminate | exact IH].
Qed.

Lemma isAlreadyPresent_first (item : Item) (pre post : list Item) (e : Item) :
  (forall b, In b pre -> active b = true ->
     (ip b = ip item -> ~ presenceCompatible (ports item) (ports b))
     /\ (ip b <> ip item -> contains (working b) (working item) = false)) ->
  active e = true ->
  (ip e = ip item -> presenceCompatible (ports item) (ports e) ->
   isAlreadyPresent item (pre ++ e :: post) = Some Listed)
  /\ (ip e <> ip item -> contains (working e) (working item) = true ->
      isAlreadyPresent item (pre ++ e :: post) = Some Covered).
Proof.
  intros Hpre Hact. apply isAlreadyPresent_None in Hpre.
  rewrite (isAlreadyPresent_app item pre (e :: post) Hpre). simpl.
  unfold active in Hact. apply negb_true_iff in Hact. rewrite Hact.
  split.
  - intros Hip Hc. rewrite Hip, String.eqb_refl.
    apply presenceCompatible_test in Hc. now rewrite Hc.
  - intros Hip Hc.
    assert (Hne : String.eqb (ip item) (ip e) = false)
      by (apply String.eqb_neq; congruence).
    now rewrite Hne, contains_test, Hc.
Qed.

(** ** Redundancy elimination *)

Lemma redundancyStep_In (item entry e : Item) :
  In e (redundancyStep item entry) -> e = entry.
Proof.
  unfold redundancyStep. intros H. apply in_app_or in H.
  destruct H as [H|H].
  - destruct (truthyN (status entry)); simpl in H; intuition.
  - repeat match type of H with
           | In _ (if ?c then _ else _) => destruct c
           end; simpl in H; intuition.
Qed.

(** Nothing new enters the list. *)
Lemma checkRedundancies_In (item : Item) (items : list Item) (e : Item) :
  In e (checkRedundancies item items) -> In e items.
Proof.
  induction items as [|entry rest IH]; simpl; [tauto|].
  intros H. apply in_app_or in H. destruct H as [H|H].
  - left. symmetry. eapply redundancyStep_In, H.
  - right. now apply IH.
Qed.

(** A record with a status is always pushed. *)
Lemma checkRedundancies_keeps_status (item : Item) (items : list Item) (e : Item) :
  In e items -> active e = false -> In e (checkRedundancies item items).
Proof.
  induction items as [|entry rest IH]; simpl; [tauto|].
  intros [<-|Hin] Ha; apply in_or_app.
  - left. unfold redundancyStep, active in *.
    apply negb_false_iff in Ha. rewrite Ha. now left.
  - right. now apply IH.
Qed.

(** The active part of the result: the survivors, in order and with
    their multiplicity. *)
Lemma checkRedundancies_active (item : Item) (items : list Item) :
  List.filter active (checkRedundancies item items)
  = List.filter (survives item) items.
Proof.
  induction items as [|entry rest IH]; simpl; [reflexivity|].
  rewrite List.filter_app, IH. unfold redundancyStep, survives, active.
  rewrite contains_test_rev.
  destruct (truthyN (status entry)) eqn:Hst; simpl.
  - rewrite Hst. simpl.
    destruct (String.eqb (ip item) (ip entry)); simpl; [reflexivity|].
    destruct (contains _ _); simpl; [|now rewrite Hst].
    destruct (isNull (ports item) || looseEq (ports item) (ports entry));
      simpl; [reflexivity | now rewrite Hst].
  - destruct (String.eqb (ip item) (ip entry)); simpl; [reflexivity|].
    destruct (contains _ _); simpl; [|now rewrite Hst].
    destruct (isNull (ports item) || looseEq (ports item) (ports entry));
      simpl; [reflexivity | now rewrite Hst].
Qed.

Lemma filter_In_iff (f : Item -> bool) (l : list Item) (e : Item) :
  In e (List.filter f l) <-> In e l /\ f e = true.
Proof. apply List.filter_In. Qed.

(** No active record of the candidate's address is left. *)
Lemma checkRedundancies_same_address (item : Item) (items : list Item) (e : Item) :
  In e (checkRedundancies item items) -> active e = true -> ip e <> ip item.
Proof.
  intros Hin Ha Hip.
  assert (H : In e (List.filter active (checkRedundancies item items))).
  { apply filter_In_iff. now split. }
  rewrite checkRedundancies_active in H. apply filter_In_iff in H.
  destruct H as [_ H]. unfold survives in H.
  rewrite Hip, String.eqb_refl, andb_false_r in H. discriminate.
Qed.

(** ** Counting and sorting *)

Lemma count_app (f : Item -> bool) (l1 l2 : list Item) :
  count f (l1 ++ l2) = (count f l1 + count f l2)%nat.
Proof. unfold count. now rewrite List.filter_app, length_app. Qed.

Lemma count_cons (f : Item -> bool) (a : Item) (l : list Item) :
  count f (a :: l) = ((if f a then 1 else 0) + count f l)%nat.
Proof. unfold count. simpl. now destruct (f a). Qed.

Lemma count_zero (f : Item -> bool) (l : list Item) :
  (forall e, In e l -> f e = false) -> count f l = 0%nat.
Proof.
  induction l as [|a l IH]; intros H; [reflexivity|].
  rewrite count_cons, (H a (or_introl eq_refl)), IH; [reflexivity|].
  intros e He. apply H. now right.
Qed.

(** Overwriting one position trades the old record's share of the count
    for the new one's. *)
Lemma count_insert (f : Item -> bool) (l : list Item) (i : nat) (old new : Item) :
  l !! i = Some old ->
  (count f (<[i := new]> l) + (if f old then 1 else 0)
   = count f l + (if f new then 1 else 0))%nat.
Proof.
  revert i. induction l as [|a l IH]; intros [|i] H; simpl in H; try discriminate.
  - injection H as ->. simpl. rewrite !count_cons. lia.
  - simpl. rewrite !count_cons. specialize (IH i H). lia.
Qed.

Lemma count_Permutation (f : Item -> bool) (l1 l2 : list Item) :
  Permutation l1 l2 -> count f l1 = count f l2.
Proof.
  induction 1; rewrite ?count_cons; lia.
Qed.

Lemma sortInsert_Permutation (a : Item) (l : list Item) :
  Permutation (sortInsert a l) (a :: l).
Proof.
  induction l as [|b l IH]; simpl; [reflexivity|].
  destruct (stays_before a b); [reflexivity|].
  rewrite IH. apply perm_swap.
Qed.

(** Sorting rearranges the records and does nothing else. *)
Lemma sortByIP_Permutation (l : list Item) : Permutation (sortByIP l) l.
Proof.
  induction l as [|a l IH]; simpl; [reflexivity|].
  now rewrite sortInsert_Permutation, IH.
Qed.

Lemma sortByIP_In (l : list Item) (e : Item) : In e (sortByIP l) <-> In e l.
Proof.
  split; apply Permutation_in;
    [apply sortByIP_Permutation | symmetry; apply sortByIP_Permutation].
Qed.

Lemma count_sortByIP (f : Item -> bool) (l : list Item) :
  count f (sortByIP l) = count f l.
Proof. apply count_Permutation, sortByIP_Permutation. Qed.

Lemma settled_In (imp : bool) (l : list Item) (e : Item) :
  In e (settled imp l) <-> In e l.
Proof. destruct imp; [reflexivity | apply sortByIP_In]. Qed.

Lemma count_settled (f : Item -> bool) (imp : bool) (l : list Item) :
  count f (settled imp l) = count f l.
Proof. destruct imp; [reflexivity | apply count_sortByIP]. Qed.

(** ** The candidate record *)

Lemma buildItem_fields cfg now ip0 p x item :
  buildItem cfg now ip0 p (Some x) = Normal (inr item) ->
  ip item = ip0 /\ ports item = p /\ status item = None
  /\ dtExpired item = None
  /\ dtAdded item = default now (x_dtAdded x)
  /\ days item = (if truthyN (x_days x) then x_days x else None)
  /\ _addWorking ip0 = Normal (working item).
Proof.
  unfold buildItem. intros H.
  repeat case_match; try discriminate; simplify_eq; simpl; auto 10.
Qed.

(** The clock only sets [dtAdded]: at another instant the same
    arguments build a candidate with the same address, port-scope and
    range. *)
Lemma buildItem_clock cfg now now' ip0 p x item :
  buildItem cfg now ip0 p (Some x) = Normal (inr item) ->
  exists item', buildItem cfg now' ip0 p (Some x) = Normal (inr item')
    /\ ip item' = ip item /\ ports item' = ports item
    /\ working item' = working item.
Proof.
  unfold buildItem. intros H.
  repeat case_match; try discriminate; simplify_eq;
    eexists; (split; [reflexivity|]); simpl; auto.
Qed.

(** The candidate is refused for an unknown port group or reason
    only. *)
Lemma buildItem_refused cfg now ip0 p extra o :
  buildItem cfg now ip0 p extra = Normal (inl o) ->
  o = UnknownPortGroup \/ o = UnknownReason.
Proof.
  unfold buildItem. intros H.
  repeat case_match; try discriminate; simplify_eq; auto.
Qed.

(** ** The search for an expired record *)

Lemma checkExpired_Some ip0 p (items : list Item) (i : nat) :
  checkExpired ip0 p items = Some i ->
  exists old, items !! i = Some old /\ expired old = true
    /\ active old = false /\ ip old = ip0 /\ scopeExact p (ports old).
Proof.
  revert i. induction items as [|item rest IH]; intros i; simpl; [discriminate|].
  assert (Hrest : S <$> checkExpired ip0 p rest = Some i ->
    exists old, (item :: rest) !! i = Some old /\ expired old = true
      /\ active old = false /\ ip old = ip0 /\ scopeExact p (ports old)).
  { destruct (checkExpired ip0 p rest) as [j|]; simpl; [|discriminate].
    intros [= <-]. apply (IH j eq_refl). }
  destruct (truthyN (status item) && expired item && String.eqb ip0 (ip item))
    eqn:Hm; [|exact Hrest].
  destruct (_ || _) eqn:Hskip; [exact Hrest|].
  destruct ((_ && _ && _) || _) eqn:Hhit; [|exact Hrest].
  intros [= <-]. exists item. simpl.
  apply andb_true_iff in Hm as [Hm Hip]. apply andb_true_iff in Hm as [Hst Hex].
  apply String.eqb_eq in Hip. unfold active. rewrite Hst.
  repeat split; auto. unfold scopeExact, unscoped, scoped.
  destruct (truthyS p) eqn:Hp, (truthyS (ports item)) eqn:Hq;
    simpl in *; try discriminate; [right | left; auto].
  rewrite orb_false_r in Hhit. apply looseEq_eq in Hhit. auto.
Qed.

(** ** Successful insertions *)

(** What a call that ends in [Inserted] or [Reactivated] went through. *)
Lemma add_success cfg now ip0 p extra imp items o items' :
  add cfg now ip0 p extra imp items = Normal (o, items') ->
  o = Inserted \/ o = Reactivated ->
  exists x item,
    extra = Some x
    /\ buildItem cfg now ip0 p (Some x) = Normal (inr item)
    /\ isAlreadyPresent item items = None
    /\ ((o = Inserted
         /\ checkExpired ip0 p (checkRedundancies item items) = None
         /\ items' = settled imp (checkRedundancies item items ++ [item]))
        \/ (o = Reactivated
            /\ exists expChk tmp,
                 checkExpired ip0 p (checkRedundancies item items) = Some expChk
                 /\ checkRedundancies item items !! expChk = Some tmp
                 /\ items' = settled imp
                      (<[expChk := restore tmp item]> (checkRedundancies item items)))).
Proof.
  unfold add. intros H Ho. destruct extra as [x|]; [|discriminate].
  exists x. destruct (buildItem cfg now ip0 p (Some x)) as [[o'|item]|] eqn:Hb;
    [injection H as -> ->; apply buildItem_refused in Hb;
     destruct Ho, Hb; congruence | | discriminate].
  exists item. split; [reflexivity|]. split; [reflexivity|].
  destruct (isAlreadyPresent item items) as [[|]|] eqn:Hpres;
    [injection H as <- _; destruct Ho; discriminate
    |injection H as <- _; destruct Ho; discriminate|].
  split; [reflexivity|].
  destruct (checkExpired ip0 p (checkRedundancies item items)) as [i|] eqn:Hexp.
  - destruct (checkExpired_Some _ _ _ _ Hexp) as (old & Hold & _).
    rewrite Hold in H. injection H as <- <-. right. split; [reflexivity|].
    exists i, old. auto.
  - injection H as <- <-. left. auto.
Qed.

(** After a successful insertion exactly one active record is held for
    the address, and every active record of the address blocks a second
    insertion under the same port-scope. *)
Lemma add_success_single cfg now ip0 p extra imp items o items' :
  add cfg now ip0 p extra imp items = Normal (o, items') ->
  o = Inserted \/ o = Reactivated ->
  count (activeFor ip0) items' = 1%nat
  /\ (exists e, In e items' /\ active e = true /\ ip e = ip0
                /\ presenceCompatible p (ports e)).
Proof.
  intros H Ho.
  destruct (add_success _ _ _ _ _ _ _ _ _ H Ho)
    as (x & item & -> & Hb & Hpres & Hcase).
  destruct (buildItem_fields _ _ _ _ _ _ Hb) as (Hip & Hp & Hst & _).
  assert (Hzero : count (activeFor ip0) (checkRedundancies item items) = 0%nat).
  { apply count_zero. intros e He. unfold activeFor.
    destruct (active e) eqn:Ha; [|reflexivity]. simpl.
    apply String.eqb_neq. rewrite <- Hip.
    now apply (checkRedundancies_same_address item items). }
  assert (Hact : active item = true) by (unfold active; now rewrite Hst).
  destruct Hcase as [(-> & _ & ->)|(-> & i & old & Hexp & Hold & ->)].
  - split.
    + rewrite count_settled, count_app, Hzero, count_cons. unfold activeFor.
      now rewrite Hact, Hip, String.eqb_refl.
    + exists item. rewrite settled_In, in_app_iff. simpl.
      repeat split; auto. right. left. now rewrite Hp.
  - destruct (checkExpired_Some _ _ _ _ Hexp)
      as (old' & Hold' & Hex & Hina & Hoip & Hscope).
    rewrite Hold in Hold'. injection Hold' as <-.
    assert (Hract : active (restore old item) = true) by reflexivity.
    split.
    + rewrite count_settled.
      pose proof (count_insert (activeFor ip0) _ _ _ (restore old item) Hold) as Hc.
      assert (Hnew : activeFor ip0 (restore old item) = true).
      { unfold activeFor. simpl. now rewrite Hip, String.eqb_refl. }
      assert (Hwas : activeFor ip0 old = false).
      { unfold activeFor. now rewrite Hina. }
      rewrite Hnew, Hwas in Hc. lia.
    + exists (restore old item). rewrite settled_In. repeat split; auto.
      * apply list_elem_of_In, list_elem_of_lookup. exists i.
        apply list_lookup_insert_eq. now apply lookup_lt_Some in Hold.
      * simpl. rewrite Hp.
        destruct Hscope as [[Hu Hu']|(Hs & Hs' & Heq)].
        -- left. split; [exact Hu|]. destruct p; [exact Hu | exact Hu'].
        -- right. left. destruct p; [reflexivity | discriminate].
Qed.

(** ** Entries that hold objects *)

Lemma shared_contents_app (s1 s2 : list Shared.Cell) :
  Shared.contents (s1 ++ s2) = (Shared.contents s1 ++ Shared.contents s2)%list.
Proof. apply map_app. Qed.

Lemma shared_contents_In (s : list Shared.Cell) (e : Item) :
  In e (Shared.contents s) <-> exists c, In c s /\ snd c = e.
Proof.
  unfold Shared.contents. rewrite in_map_iff. split; intros (c & H1 & H2); eauto.
Qed.

Lemma shared_checkRedundancies_contents (item : Item) (s : list Shared.Cell) :
  Shared.contents (Shared.checkRedundancies item s)
  = checkRedundancies item (Shared.contents s).
Proof.
  induction s as [|c rest IH]; simpl; [reflexivity|].
  rewrite shared_contents_app, IH. f_equal.
  unfold Shared.contents. rewrite map_map. simpl. apply map_id.
Qed.

Lemma shared_checkRedundancies_In (item : Item) (s : list Shared.Cell)
    (c : Shared.Cell) :
  In c (Shared.checkRedundancies item s) -> In c s.
Proof.
  induction s as [|d rest IH]; simpl; [tauto|].
  rewrite in_app_iff, in_map_iff. intros [(e & <- & He)|H]; [|auto].
  left. apply redundancyStep_In in He. subst e. now destruct d.
Qed.

Lemma shared_sortInsert_contents (a : Shared.Cell) (s : list Shared.Cell) :
  Shared.contents (Shared.sortInsert a s)
  = sortInsert (snd a) (Shared.contents s).
Proof.
  induction s as [|b rest IH]; simpl; [reflexivity|].
  destruct (stays_before (snd a) (snd b)); simpl; [reflexivity|].
  now rewrite <- IH.
Qed.

Lemma shared_sortByIP_contents (s : list Shared.Cell) :
  Shared.contents (Shared.sortByIP s) = sortByIP (Shared.contents s).
Proof.
  induction s as [|a rest IH]; simpl; [reflexivity|].
  change (fold_right Shared.sortInsert [] rest) with (Shared.sortByIP rest).
  change (fold_right sortInsert [] (Shared.contents rest))
    with (sortByIP (Shared.contents rest)).
  now rewrite shared_sortInsert_contents, IH.
Qed.

Lemma shared_sortInsert_Permutation (a : Shared.Cell) (s : list Shared.Cell) :
  Permutation (Shared.sortInsert a s) (a :: s).
Proof.
  induction s as [|b rest IH]; simpl; [reflexivity|].
  destruct (stays_before (snd a) (snd b)); [reflexivity|].
  rewrite IH. apply perm_swap.
Qed.

Lemma shared_sortByIP_Permutation (s : list Shared.Cell) :
  Permutation (Shared.sortByIP s) s.
Proof.
  induction s as [|a rest IH]; simpl; [reflexivity|].
  rewrite shared_sortInsert_Permutation. now constructor.
Qed.

Lemma shared_settled_Permutation (imp : bool) (s : list Shared.Cell) :
  Permutation (Shared.settled imp s) s.
Proof. destruct imp; [reflexivity | apply shared_sortByIP_Permutation]. Qed.

Lemma shared_settled_In (imp : bool) (s : list Shared.Cell) (c : Shared.Cell) :
  In c (Shared.settled imp s) <-> In c s.
Proof.
  split; apply Permutation_in;
    [|symmetry]; apply shared_settled_Permutation.
Qed.


Lemma shared_held_Permutation (o : nat) (s1 s2 : list Shared.Cell) :
  Permutation s1 s2 -> Shared.held o s1 = Shared.held o s2.
Proof.
  unfold Shared.held. induction 1; simpl; try congruence.
  - destruct (Shared.holds o x); simpl; congruence.
  - destruct (Shared.holds o x), (Shared.holds o y); reflexivity.
Qed.

(** The entries after an assignment to the object [o]. *)
Lemma shared_overwrite_In (o : nat) (v : Item) (s : list Shared.Cell)
    (c : Shared.Cell) :
  In c (Shared.overwrite o v s)
  <-> (c = (o, v) /\ exists c0, In c0 s /\ fst c0 = o)
      \/ (In c s /\ fst c <> o).
Proof.
  unfold Shared.overwrite, Shared.holds. rewrite in_map_iff. split.
  - intros (d & Hd & Hin). destruct (Nat.eqb_spec (fst d) o) as [Heq|Hne].
    + left. split; [now symmetry|]. eauto.
    + right. subst d. auto.
  - intros [(-> & d & Hin & Hd)|(Hin & Hne)].
    + exists d. apply Nat.eqb_eq in Hd. now rewrite Hd.
    + exists c. apply Nat.eqb_neq in Hne. now rewrite Hne.
Qed.

Lemma shared_overwrite_identities (o : nat) (v : Item) (s : list Shared.Cell) :
  map fst (Shared.overwrite o v s) = map fst s.
Proof.
  unfold Shared.overwrite, Shared.holds. rewrite map_map. apply map_ext.
  intros c. destruct (Nat.eqb_spec (fst c) o) as [Heq|Hne]; simpl; auto.
Qed.

Lemma shared_held_identities (o : nat) (s1 s2 : list Shared.Cell) :
  map fst s1 = map fst s2 -> Shared.held o s1 = Shared.held o s2.
Proof.
  unfold Shared.held, Shared.holds. revert s2.
  induction s1 as [|a s1 IH]; intros [|b s2]; simpl; try discriminate; auto.
  intros [= Hab Hrest]. rewrite Hab.
  destruct (Nat.eqb (fst b) o); simpl; auto.
Qed.

Lemma shared_fresh_new (s : list Shared.Cell) (c : Shared.Cell) :
  In c s -> fst c <> Shared.fresh s.
Proof.
  intros Hin. unfold Shared.fresh.
  assert (H : (fst c <= list_max (map fst s))%nat).
  { pose proof (proj1 (list_max_le (map fst s) (list_max (map fst s)))
                  (Nat.le_refl _)) as Hall.
    rewrite List.Forall_forall in Hall. apply Hall. now apply in_map. }
  lia.
Qed.

Lemma shared_held_app (o : nat) (s1 s2 : list Shared.Cell) :
  Shared.held o (s1 ++ s2) = (Shared.held o s1 + Shared.held o s2)%nat.
Proof. unfold Shared.held. now rewrite List.filter_app, length_app. Qed.

Lemma shared_held_none (o : nat) (s : list Shared.Cell) :
  (forall c, In c s -> fst c <> o) -> Shared.held o s = 0%nat.
Proof.
  unfold Shared.held, Shared.holds.
  induction s as [|a s IH]; intros H; simpl; [reflexivity|].
  destruct (Nat.eqb_spec (fst a) o) as [Heq|Hne].
  - exfalso. apply (H a); [now left | exact Heq].
  - apply IH. intros c Hc. apply H. now right.
Qed.

Lemma shared_held_some (o : nat) (s : list Shared.Cell) (c : Shared.Cell) :
  In c s -> fst c = o -> (1 <= Shared.held o s)%nat.
Proof.
  unfold Shared.held, Shared.holds. intros Hin Ho.
  induction s as [|a s IH]; simpl; [destruct Hin|].
  destruct Hin as [->|Hin].
  - apply Nat.eqb_eq in Ho. rewrite Ho. simpl. lia.
  - specialize (IH Hin). destruct (Nat.eqb (fst a) o); simpl; lia.
Qed.

(** Counting the entries that show a record of some kind, when these are
    the entries that hold one object. *)
Lemma shared_count_held (f : Item -> bool) (o : nat) (s : list Shared.Cell) :
  (forall c, In c s -> (f (snd c) = true <-> fst c = o)) ->
  count f (Shared.contents s) = Shared.held o s.
Proof.
  unfold count, Shared.held, Shared.holds, Shared.contents.
  induction s as [|a s IH]; intros H; simpl; [reflexivity|].
  assert (Ha : f (snd a) = Nat.eqb (fst a) o).
  { specialize (H a (or_introl eq_refl)).
    destruct (f (snd a)), (Nat.eqb_spec (fst a) o); intuition congruence. }
  rewrite Ha. destruct (Nat.eqb (fst a) o); simpl; rewrite IH; auto;
    intros c Hc; apply H; now right.
Qed.

(** On a list that holds no object twice, an expired record of the
    candidate's address is still held once after the redundancy step. *)
Lemma shared_held_once (item : Item) (s : list Shared.Cell) (ob : nat)
    (tmp : Item) :
  List.NoDup (map fst s) ->
  In (ob, tmp) (Shared.checkRedundancies item s) ->
  active tmp = false -> ip tmp = ip item ->
  Shared.held ob (Shared.checkRedundancies item s) = 1%nat.
Proof.
  intros Hnd Hin Hact Hip. unfold active in Hact.
  apply negb_false_iff in Hact.
  induction s as [|c rest IH]; simpl in *; [destruct Hin|].
  apply List.NoDup_cons_iff in Hnd as [Hnew Hnd].
  rewrite shared_held_app.
  destruct (Nat.eq_dec (fst c) ob) as [Heq|Hne].
  - assert (Hrest : Shared.held ob (Shared.checkRedundancies item rest) = 0%nat).
    { apply shared_held_none. intros d Hd Hdo. apply Hnew.
      apply shared_checkRedundancies_In in Hd. apply in_map_iff.
      exists d. split; [congruence | exact Hd]. }
    rewrite Hrest.
    assert (Hc : snd c = tmp).
    { apply in_app_or in Hin. destruct Hin as [Hin|Hin].
      - apply in_map_iff in Hin. destruct Hin as (e & [= _ <-] & He).
        now apply redundancyStep_In in He.
      - exfalso. apply Hnew. apply shared_checkRedundancies_In in Hin.
        apply in_map_iff. exists (ob, tmp). split; [now symmetry | exact Hin]. }
    unfold redundancyStep. rewrite Hc, Hact, <- Hip, String.eqb_refl. simpl.
    unfold Shared.held, Shared.holds. simpl.
    apply Nat.eqb_eq in Heq. now rewrite Heq.
  - assert (Hhere : Shared.held ob
        (map (pair (fst c)) (redundancyStep item (snd c))) = 0%nat).
    { apply shared_held_none. intros d Hd. apply in_map_iff in Hd.
      destruct Hd as (e & <- & _). exact Hne. }
    rewrite Hhere. apply IH; [exact Hnd|].
    apply in_app_or in Hin. destruct Hin as [Hin|Hin]; [|exact Hin].
    apply in_map_iff in Hin. destruct Hin as (e & [= Hc _] & _). contradiction.
Qed.

(** An assignment to an object held once rewrites one entry. *)
Lemma shared_overwrite_single (ob : nat) (v tmp : Item) (s : list Shared.Cell)
    (i : nat) :
  s !! i = Some (ob, tmp) -> Shared.held ob s = 1%nat ->
  Shared.contents (Shared.overwrite ob v s) = <[i := v]> (Shared.contents s).
Proof.
  revert i. induction s as [|a s IH]; intros i Hi Hone; [discriminate|].
  assert (Hfree : forall l : list Shared.Cell, Shared.held ob l = 0%nat ->
            Shared.contents (Shared.overwrite ob v l) = Shared.contents l).
  { clear. unfold Shared.held, Shared.overwrite, Shared.contents, Shared.holds.
    induction l as [|b l IH]; simpl; [reflexivity|].
    destruct (Nat.eqb (fst b) ob); simpl; [discriminate|].
    intros H. now rewrite IH. }
  unfold Shared.held in Hone. simpl in Hone.
  destruct i as [|i]; simpl in Hi.
  - injection Hi as ->. unfold Shared.holds in Hone at 1. simpl in Hone.
    rewrite Nat.eqb_refl in Hone. simpl in Hone.
    simpl. unfold Shared.holds at 1. simpl. rewrite Nat.eqb_refl. simpl.
    f_equal. apply Hfree. unfold Shared.held. lia.
  - assert (Hge : (1 <= Shared.held ob s)%nat).
    { apply (shared_held_some ob s (ob, tmp)); [|reflexivity].
      apply list_elem_of_In, list_elem_of_lookup. eauto. }
    unfold Shared.held in Hge.
    simpl. destruct (Shared.holds ob a) eqn:Ha; simpl in Hone; [lia|].
    simpl. f_equal. apply IH; [exact Hi|]. exact Hone.
Qed.



(** A list that holds no object twice gives every object one
    content. *)
Lemma shared_NoDup_consistent (s : list Shared.Cell) :
  List.NoDup (map fst s) -> Shared.consistent s.
Proof.
  induction s as [|a s IH]; simpl; intros Hnd c1 c2 H1 H2 Heq; [destruct H1|].
  apply List.NoDup_cons_iff in Hnd as [Hnew Hnd].
  destruct H1 as [<-|H1], H2 as [<-|H2]; auto.
  - exfalso. apply Hnew. rewrite Heq. now apply in_map.
  - exfalso. apply Hnew. rewrite <- Heq. now apply in_map.
  - now apply IH.
Qed.

(** A list just read holds no object twice. *)
Lemma shared_load_fresh (items : list Item) :
  List.NoDup (map fst (Shared.load items))
  /\ Shared.contents (Shared.load items) = items.
Proof.
  unfold Shared.load.
  assert (Hfst : forall (l : list Item) k,
            map fst (combine (seq k (length l)) l) = seq k (length l)).
  { induction l as [|a l IH]; intros k; simpl; [reflexivity|]. now rewrite IH. }
  assert (Hsnd : forall (l : list Item) k,
            map snd (combine (seq k (length l)) l) = l).
  { induction l as [|a l IH]; intros k; simpl; [reflexivity|]. now rewrite IH. }
  split; [|apply Hsnd].
  rewrite Hfst. apply NoDup_ListNoDup, NoDup_seq.
Qed.

(** ** [add] on shared objects *)

Lemma shared_lookup_contents (s : list Shared.Cell) (i : nat) (e : Item) :
  Shared.contents s !! i = Some e <-> exists ob, s !! i = Some (ob, e).
Proof.
  unfold Shared.contents. revert i.
  induction s as [|[ob d] s IH]; intros [|i]; simpl.
  - split; [discriminate | intros (ob' & H); discriminate].
  - split; [discriminate | intros (ob' & H); discriminate].
  - split; [intros [= <-]; eauto | intros (ob' & [= _ <-]); reflexivity].
  - apply IH.
Qed.

Lemma shared_add_refused cfg now ip0 p extra imp s o s' :
  Shared.add cfg now ip0 p extra imp s = Normal (o, s') ->
  o <> Inserted -> o <> Reactivated -> s' = s.
Proof.
  unfold Shared.add. intros H Hi Hr.
  destruct (buildItem cfg now ip0 p extra) as [[o'|item]|];
    [now injection H as _ <- | | discriminate].
  destruct (isAlreadyPresent item (Shared.contents s)) as [[|]|];
    [now injection H as _ <- | now injection H as _ <- |].
  destruct (checkExpired ip0 p _) as [i|].
  - destruct (_ !! i) as [[ob tmp]|]; injection H as <- _; congruence.
  - injection H as <- _; congruence.
Qed.

Lemma shared_add_rejects cfg now ip0 p x imp s item k :
  buildItem cfg now ip0 p (Some x) = Normal (inr item) ->
  isAlreadyPresent item (Shared.contents s) = Some k ->
  Shared.add cfg now ip0 p (Some x) imp s
  = Normal (match k with Listed => AlreadyPresent | Covered => AlreadyCovered end,
            s).
Proof. intros Hb Hk. unfold Shared.add. rewrite Hb, Hk. now destruct k. Qed.

Lemma shared_add_goes_through cfg now ip0 p x imp s item :
  buildItem cfg now ip0 p (Some x) = Normal (inr item) ->
  isAlreadyPresent item (Shared.contents s) = None ->
  exists o s', Shared.add cfg now ip0 p (Some x) imp s = Normal (o, s')
               /\ (o = Inserted \/ o = Reactivated).
Proof.
  intros Hb Hk. unfold Shared.add. rewrite Hb, Hk.
  destruct (checkExpired ip0 p _) as [i|].
  - destruct (_ !! i) as [[ob tmp]|]; eauto.
  - eauto.
Qed.

(** What a call that ends in [Inserted] or [Reactivated] went through. *)
Lemma shared_add_success cfg now ip0 p extra imp s o s' :
  Shared.add cfg now ip0 p extra imp s = Normal (o, s') ->
  o = Inserted \/ o = Reactivated ->
  exists x item,
    extra = Some x
    /\ buildItem cfg now ip0 p (Some x) = Normal (inr item)
    /\ isAlreadyPresent item (Shared.contents s) = None
    /\ ((o = Inserted
         /\ checkExpired ip0 p
              (Shared.contents (Shared.checkRedundancies item s)) = None
         /\ s' = Shared.settled imp
                   (Shared.checkRedundancies item s ++ [(Shared.fresh s, item)]))
        \/ (o = Reactivated
            /\ exists expChk ob tmp,
                 checkExpired ip0 p
                   (Shared.contents (Shared.checkRedundancies item s))
                 = Some expChk
                 /\ Shared.checkRedundancies item s !! expChk = Some (ob, tmp)
                 /\ s' = Shared.settled imp
                      (Shared.overwrite ob (restore tmp item)
                         (Shared.checkRedundancies item s)))).
Proof.
  unfold Shared.add. intros H Ho. destruct extra as [x|]; [|discriminate].
  exists x. destruct (buildItem cfg now ip0 p (Some x)) as [[o'|item]|] eqn:Hb;
    [injection H as -> ->; apply buildItem_refused in Hb;
     destruct Ho, Hb; congruence | | discriminate].
  exists item. split; [reflexivity|]. split; [reflexivity|].
  destruct (isAlreadyPresent item (Shared.contents s)) as [[|]|] eqn:Hpres;
    [injection H as <- _; destruct Ho; discriminate
    |injection H as <- _; destruct Ho; discriminate|].
  split; [reflexivity|].
  destruct (checkExpired ip0 p _) as [i|] eqn:Hexp.
  - destruct (checkExpired_Some _ _ _ _ Hexp) as (old & Hold & _).
    apply shared_lookup_contents in Hold. destruct Hold as [ob Hold].
    rewrite Hold in H. injection H as <- <-. right. split; [reflexivity|].
    exists i, ob, old. auto.
  - injection H as <- <-. left. auto.
Qed.

(** The entries after a successful call: one object [ob] shows the
    record [r] entered (the candidate, a new object, or the expired
    record restored); the other entries are those the redundancy step
    left. *)
Lemma shared_add_cells cfg now ip0 p extra imp s o s' :
  Shared.add cfg now ip0 p extra imp s = Normal (o, s') ->
  o = Inserted \/ o = Reactivated ->
  exists x item ob r,
    extra = Some x
    /\ buildItem cfg now ip0 p (Some x) = Normal (inr item)
    /\ isAlreadyPresent item (Shared.contents s) = None
    /\ (forall c, In c s' <->
          c = (ob, r)
          \/ (In c (Shared.checkRedundancies item s) /\ fst c <> ob))
    /\ ip r = ip0 /\ active r = true /\ scopeExact p (ports r)
    /\ working r = working item
    /\ ((o = Inserted /\ r = item /\ ob = Shared.fresh s
         /\ Shared.held ob s' = 1%nat)
        \/ (o = Reactivated
            /\ exists tmp,
                 In (ob, tmp) (Shared.checkRedundancies item s)
                 /\ expired tmp = true /\ active tmp = false
                 /\ ip tmp = ip0 /\ scopeExact p (ports tmp)
                 /\ r = restore tmp item
                 /\ Shared.held ob s'
                    = Shared.held ob (Shared.checkRedundancies item s))).
Proof.
  intros Hadd Ho.
  destruct (shared_add_success _ _ _ _ _ _ _ _ _ Hadd Ho)
    as (x & item & -> & Hb & Hpres & Hcase).
  destruct (buildItem_fields _ _ _ _ _ _ Hb) as (Hip & Hp & Hst & _).
  assert (Hact : active item = true) by (unfold active; now rewrite Hst).
  exists x, item.
  destruct Hcase as [(-> & _ & ->)|(-> & i & ob & old & Hexp & Hold & ->)].
  - exists (Shared.fresh s), item.
    assert (Hnew : forall c, In c (Shared.checkRedundancies item s) ->
                             fst c <> Shared.fresh s).
    { intros c Hc. apply shared_fresh_new.
      now apply shared_checkRedundancies_In in Hc. }
    repeat split; auto.
    + rewrite shared_settled_In, in_app_iff. simpl.
      intros [Hc|[<-|[]]]; [right; split; auto | now left].
    + rewrite shared_settled_In, in_app_iff. simpl.
      intros [<-|[Hc _]]; auto.
    + rewrite <- Hp. apply scopeExact_refl.
    + left. repeat split; auto.
      rewrite (shared_held_Permutation _ _ _ (shared_settled_Permutation _ _)).
      rewrite shared_held_app, (shared_held_none _ _ Hnew).
      unfold Shared.held, Shared.holds. simpl. now rewrite Nat.eqb_refl.
  - destruct (checkExpired_Some _ _ _ _ Hexp)
      as (old' & Hold' & Hex & Hina & Hoip & Hscope).
    apply shared_lookup_contents in Hold'. destruct Hold' as [ob' Hold'].
    rewrite Hold in Hold'. injection Hold' as <- <-.
    assert (Hin : In (ob, old) (Shared.checkRedundancies item s)).
    { apply list_elem_of_In, list_elem_of_lookup. eauto. }
    exists ob, (restore old item).
    repeat split; auto.
    + rewrite shared_settled_In, shared_overwrite_In.
      intros [[-> _]|H]; auto.
    + rewrite shared_settled_In, shared_overwrite_In.
      intros [->|H]; [left|right; exact H].
      split; [reflexivity|]. exists (ob, old). auto.
    + simpl. rewrite Hp.
      destruct p as [q|]; [|exact Hscope].
      destruct Hscope as [[Hu _]|(Hs & _ & _)]; [left | right]; auto.
    + right. split; [reflexivity|]. exists old. repeat split; auto.
      rewrite (shared_held_Permutation _ _ _ (shared_settled_Permutation _ _)).
      apply shared_held_identities, shared_overwrite_identities.
Qed.

(** The entries that show an active record of the address after a
    successful call are the entries that hold one object: the one
    entered. *)
Lemma shared_add_active cfg now ip0 p extra imp s o s' :
  Shared.add cfg now ip0 p extra imp s = Normal (o, s') ->
  o = Inserted \/ o = Reactivated ->
  exists ob,
    (exists c, In c s' /\ fst c = ob)
    /\ (forall c, In c s' -> (activeFor ip0 (snd c) = true <-> fst c = ob))
    /\ (forall c, In c s' -> fst c = ob -> scopeExact p (ports (snd c)))
    /\ (forall c, In c s' -> fst c <> ob -> In c s)
    /\ count (activeFor ip0) (Shared.contents s') = Shared.held ob s'
    /\ (List.NoDup (map fst s) ->
        count (activeFor ip0) (Shared.contents s') = 1%nat).
Proof.
  intros Hadd Ho.
  destruct (shared_add_cells _ _ _ _ _ _ _ _ _ Hadd Ho)
    as (x & item & ob & r & -> & Hb & Hpres & Hcells & Hrip & Hract & Hrp
        & Hrw & Hcase).
  destruct (buildItem_fields _ _ _ _ _ _ Hb) as (Hip & _).
  assert (Hiff : forall c, In c s' ->
                   (activeFor ip0 (snd c) = true <-> fst c = ob)).
  { intros c Hc. apply Hcells in Hc. destruct Hc as [->|[Hc Hne]]; simpl.
    - unfold activeFor. rewrite Hract, Hrip, String.eqb_refl. tauto.
    - split; [|tauto]. intros Ha. exfalso.
      unfold activeFor in Ha. apply andb_true_iff in Ha as [Ha Haip].
      apply String.eqb_eq in Haip.
      apply (checkRedundancies_same_address item (Shared.contents s) (snd c));
        [|exact Ha|congruence].
      rewrite <- shared_checkRedundancies_contents.
      apply shared_contents_In. eauto. }
  pose proof (shared_count_held _ _ _ Hiff) as Hcount.
  exists ob. split; [|split; [exact Hiff|split; [|split; [|split]]]].
  - exists (ob, r). split; [|reflexivity]. apply Hcells. now left.
  - intros c Hc Hob. apply Hcells in Hc.
    destruct Hc as [->|[_ Hne]]; [exact Hrp | contradiction].
  - intros c Hc Hne. apply Hcells in Hc.
    destruct Hc as [->|[Hc _]]; [now simpl in Hne|].
    now apply shared_checkRedundancies_In in Hc.
  - exact Hcount.
  - intros Hnd. rewrite Hcount.
    destruct Hcase as [(_ & _ & _ & Hone)|(_ & tmp & Hin & _ & Hina & Htip & _ & _ & ->)];
      [exact Hone|].
    apply (shared_held_once item s ob tmp); auto. congruence.
Qed.

(** On a list that holds no object twice, [add] computes the contents
    that [Shared.add] leaves. *)
Lemma add_contents cfg now ip0 p extra imp (s : list Shared.Cell) :
  List.NoDup (map fst s) ->
  add cfg now ip0 p extra imp (Shared.contents s)
  = match Shared.add cfg now ip0 p extra imp s with
    | Normal (o, s') => Normal (o, Shared.contents s')
    | TypeError => TypeError
    end.
Proof.
  intros Hnd. unfold add, Shared.add.
  destruct (buildItem cfg now ip0 p extra) as [[o|item]|] eqn:Hb;
    [reflexivity | | reflexivity].
  destruct (isAlreadyPresent item (Shared.contents s)) as [[|]|];
    [reflexivity | reflexivity |].
  rewrite <- shared_checkRedundancies_contents.
  destruct (checkExpired ip0 p _) as [i|] eqn:Hexp.
  - destruct (checkExpired_Some _ _ _ _ Hexp)
      as (old & Hold & _ & Hina & Hoip & _).
    rewrite Hold.
    apply shared_lookup_contents in Hold. destruct Hold as [ob Hold].
    rewrite Hold.
    assert (Hone : Shared.held ob (Shared.checkRedundancies item s) = 1%nat).
    { apply (shared_held_once item s ob old); auto.
      - apply list_elem_of_In, list_elem_of_lookup. eauto.
      - destruct extra as [x|]; [|discriminate].
        destruct (buildItem_fields _ _ _ _ _ _ Hb) as (Hip & _). congruence. }
    rewrite <- (shared_overwrite_single ob _ old _ i Hold Hone).
    destruct imp; [reflexivity|]. now rewrite shared_sortByIP_contents.
  - rewrite <- (shared_contents_app _ [(Shared.fresh s, item)]).
    destruct imp; [reflexivity|]. now rewrite shared_sortByIP_contents.
Qed.

(** [Shared.add] keeps every object to one content. *)
Lemma shared_add_consistent cfg now ip0 p extra imp s o s' :
  Shared.consistent s ->
  Shared.add cfg now ip0 p extra imp s = Normal (o, s') ->
  Shared.consistent s'.
Proof.
  intros Hcons Hadd.
  assert (Hcases : (o = Inserted \/ o = Reactivated)
                   \/ (o <> Inserted /\ o <> Reactivated))
    by (destruct o; auto; right; split; discriminate).
  destruct Hcases as [Ho|[Hi Hr]];
    [|now rewrite (shared_add_refused _ _ _ _ _ _ _ _ _ Hadd Hi Hr)].
  destruct (shared_add_cells _ _ _ _ _ _ _ _ _ Hadd Ho)
    as (x & item & ob & r & _ & _ & _ & Hcells & _).
  intros c1 c2 Hc1 Hc2 Heq. apply Hcells in Hc1, Hc2.
  destruct Hc1 as [->|[Hc1 Hn1]], Hc2 as [->|[Hc2 Hn2]]; simpl in *;
    try congruence.
  apply Hcons; auto; now apply (shared_checkRedundancies_In item).
Qed.

(** ** C1: an address already listed *)

Lemma coveredFirst_built :
  itemsOf (add cfgSsh 0 "10.0.0.0/24" (Some "ssh") (Some noExtra) false
             (itemsOf (add cfgSsh 0 "10.0.0.5" None (Some noExtra) false [])))
  = coveredFirst.
Proof. vm_compute. reflexivity. Qed.

Lemma heldTwice_built :
  Shared.add cfgSsh 0 "1.1.1.1" None (Some noExtra) true
    (Shared.load [lapsed "2.2.2.2" None 33686018 5])
  = Normal (Inserted, heldTwice).
Proof. vm_compute. reflexivity. Qed.

(** C1, as stated, fails: the list [coveredFirst] holds an active,
    unscoped record for 10.0.0.5, yet inserting 10.0.0.5 without a
    port-scope ends with the covered warning of the /24 record scanned
    first, not with [AlreadyPresent].  And a first insertion need not
    leave one active entry: on [heldTwice], the list an import leaves with
    the expired record of 2.2.2.2 pushed twice, inserting 2.2.2.2 restores
    the object and both entries show it active. *)
Lemma add_listed_address_reported_covered :
  (exists e, In e coveredFirst /\ active e = true /\ ip e = "10.0.0.5"
             /\ presenceCompatible None (ports e))
  /\ Shared.add cfgSsh 0 "10.0.0.5" None (Some noExtra) false
       (Shared.load coveredFirst)
     = Normal (AlreadyCovered, Shared.load coveredFirst)
  /\ Shared.add cfgSsh 0 "10.0.0.5" None (Some noExtra) false
       (Shared.load coveredFirst)
     <> Normal (AlreadyPresent, Shared.load coveredFirst)
  /\ Shared.add cfgSsh 0 "2.2.2.2" None (Some noExtra) true heldTwice
     = Normal (Reactivated,
         [ (0%nat, host "2.2.2.2" None 33686018);
           (0%nat, host "2.2.2.2" None 33686018);
           (1%nat, host "1.1.1.1" None 16843009) ])
  /\ count (activeFor "2.2.2.2")
       (Shared.contents
          (cellsOf (Shared.add cfgSsh 0 "2.2.2.2" None (Some noExtra) true
                      heldTwice))) = 2%nat.
Proof.
  split; [|split; [|split; [|split]]].
  - exists (host "10.0.0.5" None 167772165). repeat split.
    + right. left. reflexivity.
    + right. left. reflexivity.
  - vm_compute. reflexivity.
  - vm_compute. discriminate.
  - vm_compute. reflexivity.
  - vm_compute. reflexivity.
Qed.

(** C1 (amended).  For a candidate that passes validation: if some active
    record has the candidate's address string and a compatible port-scope
    (both absent, both equal, or only the candidate scoped), [add] is
    rejected and leaves the collection unchanged.  The outcome is that of
    the first active record, in the order of the list, that blocks the
    candidate: [AlreadyPresent] if it is a record of the candidate's
    address with a compatible port-scope, [AlreadyCovered] if it is a
    record of another address whose range contains the candidate's.
    Consequently a second insertion of an address under the same
    port-scope, after a first one that succeeded, returns
    [AlreadyPresent] and, when the list held no record twice before the
    first call, leaves exactly one active record for the address.  (On
    any list, the entries that then show an active record of the address
    are those that hold one object, the record the first call
    entered.) *)
Theorem add_rejects_listed_address cfg now ip0 p x imp s item :
  buildItem cfg now ip0 p (Some x) = Normal (inr item) ->
  ((exists e, In e (Shared.contents s) /\ active e = true /\ ip e = ip0
              /\ presenceCompatible p (ports e)) ->
   Shared.add cfg now ip0 p (Some x) imp s = Normal (AlreadyPresent, s)
   \/ Shared.add cfg now ip0 p (Some x) imp s = Normal (AlreadyCovered, s))
  /\ (forall pre e post,
        Shared.contents s = (pre ++ e :: post)%list ->
        active e = true ->
        (forall b, In b pre -> active b = true ->
           (ip b = ip0 -> ~ presenceCompatible p (ports b))
           /\ (ip b <> ip0 -> contains (working b) (working item) = false)) ->
        (ip e = ip0 -> presenceCompatible p (ports e) ->
         Shared.add cfg now ip0 p (Some x) imp s = Normal (AlreadyPresent, s))
        /\ (ip e <> ip0 -> contains (working e) (working item) = true ->
            Shared.add cfg now ip0 p (Some x) imp s
            = Normal (AlreadyCovered, s)))
  /\ (forall o s',
        Shared.add cfg now ip0 p (Some x) imp s = Normal (o, s') ->
        o = Inserted \/ o = Reactivated ->
        (forall now' imp',
           Shared.add cfg now' ip0 p (Some x) imp' s'
           = Normal (AlreadyPresent, s'))
        /\ (exists ob,
              (exists c, In c s' /\ fst c = ob)
              /\ forall c, In c s' ->
                   (activeFor ip0 (snd c) = true <-> fst c = ob))
        /\ (List.NoDup (map fst s) ->
            count (activeFor ip0) (Shared.contents s') = 1%nat)).
Proof.
  intros Hb. destruct (buildItem_fields _ _ _ _ _ _ Hb) as (Hip & Hp & _).
  split; [|split].
  - intros Hblock. rewrite <- Hip, <- Hp in Hblock.
    pose proof (isAlreadyPresent_blocked item _ Hblock) as Hsome.
    destruct (isAlreadyPresent item (Shared.contents s)) as [[|]|] eqn:Hpres;
      [left | right | congruence];
      apply (shared_add_rejects _ _ _ _ _ _ _ _ _ Hb Hpres).
  - intros pre e post Hs Hact Hpre. rewrite <- Hip, <- Hp in Hpre.
    destruct (isAlreadyPresent_first item pre post e Hpre Hact) as [HL HC].
    rewrite <- Hs in HL, HC. split.
    + intros He Hc. rewrite <- Hip in He. rewrite <- Hp in Hc.
      apply (shared_add_rejects _ _ _ _ _ _ _ _ _ Hb (HL He Hc)).
    + intros He Hc. rewrite <- Hip in He.
      apply (shared_add_rejects _ _ _ _ _ _ _ _ _ Hb (HC He Hc)).
  - intros o s' Hadd Ho.
    destruct (shared_add_active _ _ _ _ _ _ _ _ _ Hadd Ho)
      as (ob & (c0 & Hc0 & Hob0) & Hiff & Hscope & Hold & _ & Hone).
    split; [|split; [exists ob; eauto | exact Hone]].
    intros now' imp'.
    destruct (shared_add_success _ _ _ _ _ _ _ _ _ Hadd Ho)
      as (x' & item1 & [= <-] & Hb1 & Hpres & _).
    rewrite Hb in Hb1. injection Hb1 as <-.
    destruct (buildItem_clock _ _ now' _ _ _ _ Hb)
      as (item' & Hb' & Hip' & Hp' & Hw').
    apply (shared_add_rejects _ _ _ _ _ _ _ _ Listed Hb').
    rewrite (isAlreadyPresent_ext item item' _ Hip' Hp' Hw').
    apply isAlreadyPresent_Listed.
    + exists (snd c0).
      pose proof (proj2 (Hiff c0 Hc0) Hob0) as Ha.
      unfold activeFor in Ha. apply andb_true_iff in Ha as [Ha Haip].
      apply String.eqb_eq in Haip.
      split; [apply shared_contents_In; eauto|].
      split; [exact Ha|]. split; [congruence|].
      rewrite Hp. apply scopeExact_compatible. now apply Hscope.
    + intros e He Hact Hne.
      apply shared_contents_In in He. destruct He as (c & Hc & <-).
      assert (Hnob : fst c <> ob).
      { intros Heq. apply (Hiff c Hc) in Heq.
        unfold activeFor in Heq. apply andb_true_iff in Heq as [_ Heq].
        apply String.eqb_eq in Heq. congruence. }
      rewrite isAlreadyPresent_None in Hpres.
      apply (Hpres (snd c)); auto.
      apply shared_contents_In. exists c. split; [|reflexivity].
      now apply Hold.
Qed.

(** The theorem at 10.0.0.5, unscoped: on the empty list the first call
    inserts and the second is rejected; on [coveredFirst] the /24 scanned
    first decides for [AlreadyCovered]. *)
Lemma add_rejects_listed_address_witness :
  buildItem cfgSsh 0 "10.0.0.5" None (Some noExtra)
    = Normal (inr (host "10.0.0.5" None 167772165))
  /\ Shared.add cfgSsh 7 "10.0.0.5" None (Some noExtra) false
       [(1%nat, host "10.0.0.5" None 167772165)]
     = Normal (AlreadyPresent, [(1%nat, host "10.0.0.5" None 167772165)])
  /\ count (activeFor "10.0.0.5")
       (Shared.contents [(1%nat, host "10.0.0.5" None 167772165)]) = 1%nat
  /\ Shared.add cfgSsh 0 "10.0.0.5" None (Some noExtra) false
       (Shared.load coveredFirst)
     = Normal (AlreadyCovered, Shared.load coveredFirst).
Proof.
  split; [vm_compute; reflexivity|].
  destruct (proj2 (proj2 (add_rejects_listed_address cfgSsh 0 "10.0.0.5" None
                            noExtra false [] (host "10.0.0.5" None 167772165)
                            ltac:(vm_compute; reflexivity)))
              Inserted [(1%nat, host "10.0.0.5" None 167772165)]
              ltac:(vm_compute; reflexivity) (or_introl eq_refl))
    as (Hagain & _ & Hone).
  split; [exact (Hagain 7 false)|]. split; [apply Hone; constructor|].
  apply (proj1 (proj2 (add_rejects_listed_address cfgSsh 0 "10.0.0.5" None
                         noExtra false (Shared.load coveredFirst)
                         (host "10.0.0.5" None 167772165)
                         ltac:(vm_compute; reflexivity)))
           [] (block "10.0.0.0/24" (Some "ssh") 167772160 167772415)
           [host "10.0.0.5" None 167772165]).
  - reflexivity.
  - reflexivity.
  - intros b [].
  - discriminate.
  - reflexivity.
Defined.

(** ** C2: an address already covered *)

(** C2.  For a candidate that passes validation and whose address string
    differs from that of every active record: if the range of some active
    record contains the candidate's ([outer.low <= inner.low] and
    [inner.high <= outer.high]), [add] ends with [AlreadyCovered] and the
    collection is unchanged. *)
Theorem add_rejects_covered_address cfg now ip0 p x imp items item :
  buildItem cfg now ip0 p (Some x) = Normal (inr item) ->
  (forall e, In e items -> active e = true -> ip e <> ip0) ->
  (exists e, In e items /\ active e = true
             /\ fromDec (working e) <= fromDec (working item)
             /\ toDec (working item) <= toDec (working e)) ->
  add cfg now ip0 p (Some x) imp items = Normal (AlreadyCovered, items).
Proof.
  intros Hb Hne (e & Hin & Ha & Hlo & Hhi).
  destruct (buildItem_fields _ _ _ _ _ _ Hb) as (Hip & _).
  unfold add. rewrite Hb.
  rewrite (isAlreadyPresent_Covered item items); [reflexivity | |].
  - now rewrite Hip.
  - exists e. repeat split; auto. unfold contains.
    apply andb_true_iff. split; now apply Z.leb_le.
Qed.

(** The theorem at 10.0.0.5 against an active 10.0.0.0/24. *)
Lemma add_rejects_covered_address_witness :
  add cfgSsh 0 "10.0.0.5" (Some "ssh") (Some noExtra) false
    [block "10.0.0.0/24" None 167772160 167772415]
  = Normal (AlreadyCovered, [block "10.0.0.0/24" None 167772160 167772415]).
Proof.
  apply (add_rejects_covered_address cfgSsh 0 "10.0.0.5" (Some "ssh") noExtra
           false _ (host "10.0.0.5" (Some "ssh") 167772165)).
  - vm_compute. reflexivity.
  - intros e [<-|[]] _. vm_compute. discriminate.
  - exists (block "10.0.0.0/24" None 167772160 167772415).
    split; [now left|]. split; [reflexivity|]. simpl. lia.
Defined.

(** ** C3: redundancy elimination *)







(** ** C4: reactivation *)

(** C4, as stated, fails: with the address expired once under [ssh] and
    once unscoped, an unscoped insertion restores the second record and
    two records for the address remain.  And on [heldTwice], where the
    expired record is held by two entries, both show it restored. *)
Lemma add_reactivation_keeps_other_scope :
  Shared.add cfgSsh 9 "2.2.2.2" None (Some noExtra) false
    (Shared.load [lapsed "2.2.2.2" (Some "ssh") 33686018 5;
                  lapsed "2.2.2.2" None 33686018 5])
  = Normal (Reactivated,
      [(0%nat, lapsed "2.2.2.2" (Some "ssh") 33686018 5);
       (1%nat, restore (lapsed "2.2.2.2" None 33686018 5)
                 {| ip := "2.2.2.2"; dtAdded := 9; ports := None; days := None;
                    country := None; org := None; reason := None;
                    status := None; dtExpired := None;
                    working := mkWorking 33686018 33686018 |})])
  /\ count (heldFor "2.2.2.2")
       (Shared.contents
          (cellsOf (Shared.add cfgSsh 9 "2.2.2.2" None (Some noExtra) false
             (Shared.load [lapsed "2.2.2.2" (Some "ssh") 33686018 5;
                           lapsed "2.2.2.2" None 33686018 5])))) = 2%nat
  /\ count (activeFor "2.2.2.2")
       (Shared.contents
          (cellsOf (Shared.add cfgSsh 0 "2.2.2.2" None (Some noExtra) true
                      heldTwice))) = 2%nat.
Proof. repeat split; vm_compute; reflexivity. Qed.

(** C4 (amended).  When [add] ends with [Reactivated], the search found,
    in the list left by the redundancy step, a record of status [1]
    whose address string equals the candidate's and whose port-scope
    matches exactly (both absent, or both present and equal).  That
    record is overwritten in place: [status] and [dtExpired] are cleared,
    [days] is the candidate's (cleared when the candidate has none),
    [dtAdded] is the candidate's (the current time unless the metadata
    carries one), and every metadata field the candidate has replaces the
    old one.  No record is appended: every entry of the list afterwards
    holds a record the list held before, and the list is as long as the
    redundancy step left it.  When the list held no record twice, exactly
    one active record for the address remains (expired records of the
    address under another port-scope stay).  (On any list, the entries
    that show an active record of the address are those that hold the
    restored object.) *)
Theorem add_reactivates_expired_match cfg now ip0 p x imp s s' :
  Shared.add cfg now ip0 p (Some x) imp s = Normal (Reactivated, s') ->
  exists item expChk ob tmp,
    buildItem cfg now ip0 p (Some x) = Normal (inr item)
    /\ checkExpired ip0 p (Shared.contents (Shared.checkRedundancies item s))
       = Some expChk
    /\ Shared.checkRedundancies item s !! expChk = Some (ob, tmp)
    /\ In (ob, tmp) s
    /\ expired tmp = true /\ ip tmp = ip0 /\ scopeExact p (ports tmp)
    /\ s' = Shared.settled imp
         (Shared.overwrite ob (restore tmp item)
            (Shared.checkRedundancies item s))
    /\ status (restore tmp item) = None
    /\ dtExpired (restore tmp item) = None
    /\ days (restore tmp item) = (if truthyN (x_days x) then x_days x else None)
    /\ dtAdded (restore tmp item) = default now (x_dtAdded x)
    /\ ip (restore tmp item) = ip0
    /\ (forall c, country item = Some c -> country (restore tmp item) = Some c)
    /\ (forall g, org item = Some g -> org (restore tmp item) = Some g)
    /\ (forall r, reason item = Some r -> reason (restore tmp item) = Some r)
    /\ length s' = length (Shared.checkRedundancies item s)
    /\ (forall c, In c s' -> exists c0, In c0 s /\ fst c0 = fst c)
    /\ (forall c, In c s' -> (activeFor ip0 (snd c) = true <-> fst c = ob))
    /\ (forall c, In c s' -> fst c = ob -> snd c = restore tmp item)
    /\ (List.NoDup (map fst s) ->
        count (activeFor ip0) (Shared.contents s') = 1%nat).
Proof.
  intros Hadd.
  pose proof (or_intror eq_refl : Reactivated = Inserted \/ Reactivated = Reactivated)
    as Ho.
  destruct (shared_add_success _ _ _ _ _ _ _ _ _ Hadd Ho)
    as (x' & item & [= <-] & Hb & Hpres & Hcase).
  destruct Hcase as [(Habs & _)|(_ & i & ob & old & Hexp & Hold & ->)];
    [discriminate|].
  destruct (checkExpired_Some _ _ _ _ Hexp)
    as (old' & Hold' & Hex & Hina & Hoip & Hscope).
  apply shared_lookup_contents in Hold'. destruct Hold' as [ob' Hold'].
  rewrite Hold in Hold'. injection Hold' as <- <-.
  destruct (buildItem_fields _ _ _ _ _ _ Hb)
    as (Hip & Hp & Hst & Hdx & Hdt & Hdays & _).
  assert (Hin : In (ob, old) (Shared.checkRedundancies item s)).
  { apply list_elem_of_In, list_elem_of_lookup. eauto. }
  assert (Hcell : forall c,
    In c (Shared.settled imp (Shared.overwrite ob (restore old item)
                                (Shared.checkRedundancies item s))) ->
    (c = (ob, restore old item))
    \/ (In c (Shared.checkRedundancies item s) /\ fst c <> ob)).
  { intros c Hc. rewrite shared_settled_In, shared_overwrite_In in Hc.
    destruct Hc as [[-> _]|H]; auto. }
  assert (Hiff : forall c,
    In c (Shared.settled imp (Shared.overwrite ob (restore old item)
                                (Shared.checkRedundancies item s))) ->
    (activeFor ip0 (snd c) = true <-> fst c = ob)).
  { intros c Hc. destruct (Hcell c Hc) as [->|[Hc1 Hne]]; simpl.
    - unfold activeFor. simpl. rewrite Hip, String.eqb_refl. tauto.
    - split; [|tauto]. intros Ha. exfalso.
      unfold activeFor in Ha. apply andb_true_iff in Ha as [Ha Haip].
      apply String.eqb_eq in Haip.
      apply (checkRedundancies_same_address item (Shared.contents s) (snd c));
        [|exact Ha|congruence].
      rewrite <- shared_checkRedundancies_contents.
      apply shared_contents_In. eauto. }
  exists item, i, ob, old. simpl.
  repeat match goal with |- _ /\ _ => split end; auto.
  - now apply (shared_checkRedundancies_In item).
  - intros c ->. reflexivity.
  - intros g ->. reflexivity.
  - intros r ->. reflexivity.
  - rewrite (Permutation_length (shared_settled_Permutation _ _)).
    unfold Shared.overwrite. apply length_map.
  - intros c Hc. destruct (Hcell c Hc) as [->|[Hc1 _]].
    + exists (ob, old). split; [|reflexivity].
      now apply (shared_checkRedundancies_In item).
    + exists c. split; [|reflexivity].
      now apply (shared_checkRedundancies_In item).
  - intros c Hc Hob. destruct (Hcell c Hc) as [->|[_ Hne]];
      [reflexivity | contradiction].
  - intros Hnd. rewrite (shared_count_held _ ob _ Hiff).
    rewrite (shared_held_Permutation _ _ _ (shared_settled_Permutation _ _)).
    rewrite (shared_held_identities _ _ _ (shared_overwrite_identities _ _ _)).
    apply (shared_held_once item s ob old); auto. congruence.
Qed.

(** The theorem on test 9: the swept record of 3.0.115.255 is restored by
    an insertion without port-scope, and stays the only record. *)
Lemma add_reactivates_expired_match_witness :
  Shared.add cfgSsh 0 "3.0.115.255" None (Some noExtra) false
    (Shared.load test9Swept)
  = Normal (Reactivated,
      [(0%nat, restore (lapsed "3.0.115.255" None 50361343 0)
                 (host "3.0.115.255" None 50361343))])
  /\ count (activeFor "3.0.115.255")
       (Shared.contents
          [(0%nat, restore (lapsed "3.0.115.255" None 50361343 0)
                     (host "3.0.115.255" None 50361343))]) = 1%nat.
Proof.
  assert (H : Shared.add cfgSsh 0 "3.0.115.255" None (Some noExtra) false
                (Shared.load test9Swept)
    = Normal (Reactivated,
        [(0%nat, restore (lapsed "3.0.115.255" None 50361343 0)
                   (host "3.0.115.255" None 50361343))]))
    by (vm_compute; reflexivity).
  split; [exact H|].
  destruct (add_reactivates_expired_match _ _ _ _ _ _ _ _ H)
    as (item & i & ob & old & Hrest).
  repeat match type of Hrest with _ /\ ?Q => destruct Hrest as [_ Hrest] end.
  apply Hrest. vm_compute. repeat constructor. intros [].
Defined.

(** ** C5: the sweep *)

(** The first sweep of test 9 leaves the record expired. *)
Lemma test9Swept_record :
  test9Swept = [test9Record (t_2021_02_21 + 3 * 86400000)].
Proof. vm_compute. reflexivity. Qed.

(** C5 (the code departs from it).  [removeExpired] never reads
    [status]: whatever its status, a record whose period is nonzero and
    has run out is stamped (or, under the delete-on-expiry policy,
    removed) and counted.  So a second sweep, a week later, of the record
    that the first sweep of test 9 expired stamps [dtExpired] again and
    counts the record again, or removes it. *)
Theorem removeExpired_sweeps_expired_record_again :
  (forall cfg clock e,
      getBlockDays cfg e <> 0 ->
      86400000 * getBlockDays cfg e <= clock 0%nat - dtAdded e ->
      removeExpired cfg clock [e]
      = (if expireDeletes cfg then [] else [expire (clock 0%nat) e], 1%nat))
  /\ expired (test9Record (t_2021_02_21 + 3 * 86400000)) = true
  /\ active (test9Record (t_2021_02_21 + 3 * 86400000)) = false
  /\ removeExpired cfgSsh (fun _ => t_2021_02_21 + 10 * 86400000)
       [test9Record (t_2021_02_21 + 3 * 86400000)]
     = ([test9Record (t_2021_02_21 + 10 * 86400000)], 1%nat)
  /\ removeExpired cfgDeletes (fun _ => t_2021_02_21 + 10 * 86400000)
       [test9Record (t_2021_02_21 + 3 * 86400000)]
     = ([], 1%nat).
Proof.
  split; [|repeat split; vm_compute; reflexivity].
  intros cfg clock e Hnz Hrun. unfold removeExpired. simpl.
  apply Z.eqb_neq in Hnz. rewrite Hnz.
  assert (Hlt : (clock 0%nat - dtAdded e <? 86400000 * getBlockDays cfg e) = false)
    by (apply Z.ltb_ge; exact Hrun).
  rewrite Hlt. now destruct (expireDeletes cfg).
Qed.

(** ** C6: removal *)

(** C6 (the code departs from it).  The loop of [remove] pushes a record
    that has a status and then falls through to the address test, which
    pushes it a second time unless it is the record asked for.  Removing
    1.1.1.1 from a list that also holds an expired 2.2.2.2 leaves the
    expired record twice.  The same fall-through sets [found] for an
    expired record of the address, so the call reports a removal when no
    active record was removed. *)
Theorem remove_duplicates_expired_record :
  (forall ip0 p e,
      active e = false -> ip e <> ip0 ->
      removeStep ip0 p e = ([e; e], false))
  /\ remove "1.1.1.1" None
       [host "1.1.1.1" None 16843009; lapsed "2.2.2.2" None 33686018 5]
     = ([lapsed "2.2.2.2" None 33686018 5; lapsed "2.2.2.2" None 33686018 5],
        true)
  /\ remove "1.1.1.1" None [lapsed "1.1.1.1" None 16843009 5]
     = ([lapsed "1.1.1.1" None 16843009 5], true).
Proof.
  split; [|split; vm_compute; reflexivity].
  intros ip0 p e Hst Hip. unfold removeStep, active in *.
  apply negb_false_iff in Hst. apply String.eqb_neq in Hip.
  now rewrite Hst, Hip.
Qed.

(** ** C7: an unscoped candidate over a scoped record *)

Lemma redundancyWarnings_ports (item : Item) (items : list Item) (e : Item) :
  In e items -> ip e = ip item ->
  unscoped (ports item) -> scoped (ports e) ->
  In (GreaterScopeOfPorts e) (redundancyWarnings item items).
Proof.
  unfold unscoped, scoped. intros Hin Hip Hu Hs.
  induction items as [|entry rest IH]; simpl; [destruct Hin|].
  apply in_or_app. destruct Hin as [->|Hin]; [left | right; auto].
  now rewrite Hip, String.eqb_refl, Hu, Hs; left.
Qed.

Lemma coveredScoped_built :
  Shared.add cfgWebSsh 0 "10.0.0.0/24" (Some "web") (Some noExtra) false
    (cellsOf (Shared.add cfgWebSsh 0 "10.0.0.5" (Some "ssh") (Some noExtra)
                false []))
  = Normal (Inserted, coveredScoped).
Proof. vm_compute. reflexivity. Qed.

Lemma heldTwiceScoped_built :
  Shared.add cfgSsh 0 "2.2.2.2" (Some "ssh") (Some noExtra) true heldTwice
  = Normal (Inserted, heldTwiceScoped).
Proof. vm_compute. reflexivity. Qed.

(** C7, as stated, fails: inserting 94.181.47.232 without port-scope over
    an active record of that address held for [ssh] removes the record;
    one active record for the address is left, not two.  Nor is the
    candidate always inserted: on [coveredScoped] the /24 scanned first
    covers 10.0.0.5 and the call is rejected with nothing removed.  And
    on [heldTwiceScoped], where an expired unscoped record of the address
    is held by two entries, both show it restored. *)
Lemma add_unscoped_removes_scoped_record :
  Shared.add cfgSsh 0 "94.181.47.232" None (Some noExtra) false
    [(0%nat, host "94.181.47.232" (Some "ssh") 1588932584)]
  = Normal (Inserted, [(1%nat, host "94.181.47.232" None 1588932584)])
  /\ count (activeFor "94.181.47.232")
       (Shared.contents [(1%nat, host "94.181.47.232" None 1588932584)])
     = 1%nat
  /\ Shared.add cfgWebSsh 0 "10.0.0.5" None (Some noExtra) false coveredScoped
     = Normal (AlreadyCovered, coveredScoped)
  /\ Shared.add cfgSsh 0 "2.2.2.2" None (Some noExtra) true heldTwiceScoped
     = Normal (Reactivated,
         [ (0%nat, host "2.2.2.2" None 33686018);
           (0%nat, host "2.2.2.2" None 33686018);
           (1%nat, host "1.1.1.1" None 16843009) ]).
Proof. repeat split; vm_compute; reflexivity. Qed.

(** C7 (amended).  An unscoped candidate is offered while the collection
    holds an active record [e] with the same address string and a named
    port-scope.  If the collection also holds an active unscoped record
    of the address, or an active record of another address whose range
    contains the candidate's, the call is rejected and nothing is
    removed.  Otherwise the call goes through: the redundancy step logs
    the greater-scope warning for [e] and removes it, and the candidate is
    inserted (or an expired unscoped record of the address restored).
    Every active record of the address is then unscoped, and there is
    exactly one when the list held no record twice.  (On any list, the
    entries that show an active record of the address are those that hold
    one object, the record entered.) *)
Theorem add_unscoped_supersedes_scoped_record
    cfg now ip0 p x imp s item e :
  unscoped p ->
  buildItem cfg now ip0 p (Some x) = Normal (inr item) ->
  In e (Shared.contents s) -> active e = true -> ip e = ip0 ->
  scoped (ports e) ->
  ((exists b, In b (Shared.contents s) /\ active b = true
              /\ ((ip b = ip0 /\ unscoped (ports b))
                  \/ (ip b <> ip0
                      /\ contains (working b) (working item) = true))) ->
   Shared.add cfg now ip0 p (Some x) imp s = Normal (AlreadyPresent, s)
   \/ Shared.add cfg now ip0 p (Some x) imp s = Normal (AlreadyCovered, s))
  /\ ((forall b, In b (Shared.contents s) -> active b = true ->
         (ip b = ip0 -> scoped (ports b))
         /\ (ip b <> ip0 -> contains (working b) (working item) = false)) ->
      exists o s',
        Shared.add cfg now ip0 p (Some x) imp s = Normal (o, s')
        /\ (o = Inserted \/ o = Reactivated))
  /\ (forall o s',
        Shared.add cfg now ip0 p (Some x) imp s = Normal (o, s') ->
        o = Inserted \/ o = Reactivated ->
        In (GreaterScopeOfPorts e) (redundancyWarnings item (Shared.contents s))
        /\ ~ In e (Shared.contents s')
        /\ (forall a, In a (Shared.contents s') -> active a = true ->
                      ip a = ip0 -> unscoped (ports a))
        /\ (exists ob,
              (exists c, In c s' /\ fst c = ob)
              /\ forall c, In c s' ->
                   (activeFor ip0 (snd c) = true <-> fst c = ob))
        /\ (List.NoDup (map fst s) ->
            count (activeFor ip0) (Shared.contents s') = 1%nat)).
Proof.
  intros Hu Hb Hin Hact Hip Hs.
  destruct (buildItem_fields _ _ _ _ _ _ Hb) as (Hiip & Hp & _).
  assert (Hcompat : forall q, presenceCompatible p q <-> unscoped q).
  { intros q. unfold presenceCompatible, unscoped, scoped in *. split.
    - intros [[_ H]|[<-|[H _]]]; auto. congruence.
    - auto. }
  split; [|split].
  - intros (b & Hbin & Hbact & Hcase).
    assert (Hsome : isAlreadyPresent item (Shared.contents s) <> None).
    { rewrite isAlreadyPresent_None. intros HN.
      destruct (HN b Hbin Hbact) as [H1 H2].
      destruct Hcase as [[Hbip Hbu]|[Hbip Hbc]].
      - apply H1; [congruence|]. rewrite Hp. now apply Hcompat.
      - rewrite H2 in Hbc; [discriminate | congruence]. }
    destruct (isAlreadyPresent item (Shared.contents s)) as [[|]|] eqn:Hpres;
      [left | right | congruence];
      apply (shared_add_rejects _ _ _ _ _ _ _ _ _ Hb Hpres).
  - intros Hfree. apply (shared_add_goes_through _ _ _ _ _ _ _ _ Hb).
    apply isAlreadyPresent_None. intros b Hbin Hbact.
    destruct (Hfree b Hbin Hbact) as [H1 H2]. split.
    + intros Hbip Hc. rewrite Hp in Hc. apply Hcompat in Hc.
      rewrite Hiip in Hbip. specialize (H1 Hbip).
      unfold unscoped, scoped in *. congruence.
    + intros Hbip. apply H2. congruence.
  - intros o s' Hadd Ho.
    destruct (shared_add_active _ _ _ _ _ _ _ _ _ Hadd Ho)
      as (ob & Hex & Hiff & Hscope & _ & _ & Hone).
    assert (Hall : forall a, In a (Shared.contents s') -> active a = true ->
                             ip a = ip0 -> unscoped (ports a)).
    { intros a Ha Haa Haip. apply shared_contents_In in Ha.
      destruct Ha as (c & Hc & <-).
      assert (Hob : fst c = ob).
      { apply (Hiff c Hc). unfold activeFor.
        now rewrite Haa, Haip, String.eqb_refl. }
      apply Hcompat, scopeExact_compatible. now apply Hscope. }
    split; [|split; [|split; [exact Hall | split; [eauto | exact Hone]]]].
    + apply redundancyWarnings_ports; auto; congruence.
    + intros He. specialize (Hall e He Hact Hip). unfold unscoped, scoped in *.
      congruence.
Qed.

(** The theorem on test 4 of [doTest]: 94.181.47.232 held for [ssh], then
    inserted without port-scope. *)
Lemma add_unscoped_supersedes_scoped_record_witness :
  (exists o s',
     Shared.add cfgSsh 0 "94.181.47.232" None (Some noExtra) false
       [(0%nat, host "94.181.47.232" (Some "ssh") 1588932584)]
     = Normal (o, s')
     /\ (o = Inserted \/ o = Reactivated))
  /\ In (GreaterScopeOfPorts (host "94.181.47.232" (Some "ssh") 1588932584))
        (redundancyWarnings (host "94.181.47.232" None 1588932584)
           (Shared.contents
              [(0%nat, host "94.181.47.232" (Some "ssh") 1588932584)]))
  /\ ~ In (host "94.181.47.232" (Some "ssh") 1588932584)
          (Shared.contents [(1%nat, host "94.181.47.232" None 1588932584)])
  /\ count (activeFor "94.181.47.232")
       (Shared.contents [(1%nat, host "94.181.47.232" None 1588932584)])
     = 1%nat.
Proof.
  pose proof (add_unscoped_supersedes_scoped_record cfgSsh 0 "94.181.47.232"
                None noExtra false
                [(0%nat, host "94.181.47.232" (Some "ssh") 1588932584)]
                (host "94.181.47.232" None 1588932584)
                (host "94.181.47.232" (Some "ssh") 1588932584)
                eq_refl ltac:(vm_compute; reflexivity)
                (or_introl eq_refl) eq_refl eq_refl eq_refl)
    as (_ & Hgoes & Hthen).
  split.
  - apply Hgoes. intros b [<-|[]] _. split; [reflexivity|].
    intros Hne. now contradiction Hne.
  - destruct (Hthen Inserted [(1%nat, host "94.181.47.232" None 1588932584)]
                ltac:(vm_compute; reflexivity) (or_introl eq_refl))
      as (Hw & Hgone & _ & _ & Hone).
    split; [exact Hw|]. split; [exact Hgone|].
    apply Hone. repeat constructor. intros [].
Defined.

(** ** C8: the block period *)

(** C8, as stated, fails: with country [XX] configured at zero days and
    port group [ssh] at five, a record of that country entered under
    [ssh] resolves to the five days of the port group, where the stated
    precedence stops at the country's default, zero. *)
Lemma getBlockDays_skips_zero_country_default :
  getBlockDays cfgZeroCountry
    {| ip := "1.2.3.4"; dtAdded := 0; ports := Some "ssh"; days := None;
       country := Some "XX"; org := None; reason := None;
       status := None; dtExpired := None;
       working := mkWorking 16909060 16909060 |} = 5
  /\ statedTTLDays cfgZeroCountry
       {| ip := "1.2.3.4"; dtAdded := 0; ports := Some "ssh"; days := None;
          country := Some "XX"; org := None; reason := None;
          status := None; dtExpired := None;
          working := mkWorking 16909060 16909060 |} = 0
  /\ buildItem cfgZeroCountry 0 "1.2.3.4" (Some "ssh")
       (Some (mkExtra None None (Some "XX") None None))
     = Normal (inr
         {| ip := "1.2.3.4"; dtAdded := 0; ports := Some "ssh"; days := None;
            country := Some "XX"; org := None; reason := None;
            status := None; dtExpired := None;
            working := mkWorking 16909060 16909060 |}).
Proof. repeat split; vm_compute; reflexivity. Qed.

(** C8 (amended).  [getBlockDays] follows the precedence of the
    specification with a default counting only when it is nonzero: the
    record's own days if present and nonzero, else the country's default
    if the record has a country and a nonzero period is configured for
    it, else the port group's default if the record has a port-scope
    configured with nonzero days, else the global default, else [0].
    (The country is one the table is asked for by name: not the name of
    a member every object inherits.)  A record without days, of country
    [XX] (ten days) and entered under [ssh] (five days), resolves to ten
    days. *)
Theorem getBlockDays_precedence :
  (forall cfg r, countryListed r -> getBlockDays cfg r = resolveTTLDays cfg r)
  /\ (forall cfg r d, days r = Some d -> d <> 0 -> getBlockDays cfg r = d)
  /\ (forall now item,
        buildItem cfgPrecedence now "1.2.3.4" (Some "ssh")
          (Some (mkExtra None None (Some "XX") None None))
        = Normal (inr item) ->
        getBlockDays cfgPrecedence item = 10)
  /\ getBlockDays cfgPrecedence
       {| ip := "1.2.3.4"; dtAdded := 0; ports := Some "ssh"; days := None;
          country := Some "XX"; org := None; reason := None;
          status := None; dtExpired := None;
          working := mkWorking 16909060 16909060 |} = 10.
Proof.
  assert (Heq : forall cfg r, getBlockDays cfg r = resolveTTLDays cfg r).
  { intros cfg r. unfold getBlockDays, resolveTTLDays, countryDefault,
      portGroupDefault, truthyS.
    destruct (days r) as [d|]; simpl;
      [destruct (d =? 0) eqn:Hd; simpl; [|reflexivity]|].
    all: destruct (country r) as [c|], (countryBlockDays cfg) as [tbl|]; simpl;
      try destruct (String.eqb c EmptyString); simpl;
      try (destruct (tbl !! c) as [n|]; simpl;
           [destruct (n =? 0); simpl; [|reflexivity]|]).
    all: destruct (ports r) as [q|]; simpl;
      try destruct (String.eqb q EmptyString); simpl;
      try (destruct (cfg_ports cfg !! q) as [pd|]; simpl;
           [destruct (pd_days pd) as [m|]; simpl;
            [destruct (m =? 0); simpl; [|reflexivity]|]|]).
    all: destruct (defaultBlockDays cfg) as [g|]; simpl;
      try destruct (g =? 0) eqn:Hg; simpl; try reflexivity.
    all: apply Z.eqb_eq in Hg; now subst. }
  split; [intros cfg r _; apply Heq|]. split; [|split].
  - intros cfg r d Hd Hnz. unfold getBlockDays. rewrite Hd. simpl.
    apply Z.eqb_neq in Hnz. now rewrite Hnz.
  - intros now item Hb. vm_compute in Hb. injection Hb as <-.
    vm_compute. reflexivity.
  - vm_compute. reflexivity.
Qed.

(** The insertion of the example goes through, so the third part of the
    theorem speaks of a real record, and the precedence applies to it. *)
Lemma getBlockDays_precedence_witness :
  buildItem cfgPrecedence 0 "1.2.3.4" (Some "ssh")
    (Some (mkExtra None None (Some "XX") None None))
  = Normal (inr
      {| ip := "1.2.3.4"; dtAdded := 0; ports := Some "ssh"; days := None;
         country := Some "XX"; org := None; reason := None;
         status := None; dtExpired := None;
         working := mkWorking 16909060 16909060 |})
  /\ getBlockDays cfgPrecedence
       {| ip := "1.2.3.4"; dtAdded := 0; ports := Some "ssh"; days := None;
          country := Some "XX"; org := None; reason := None;
          status := None; dtExpired := None;
          working := mkWorking 16909060 16909060 |} = 10
  /\ getBlockDays cfgZeroCountry
       {| ip := "1.2.3.4"; dtAdded := 0; ports := Some "ssh"; days := None;
          country := Some "XX"; org := None; reason := None;
          status := None; dtExpired := None;
          working := mkWorking 16909060 16909060 |}
     = resolveTTLDays cfgZeroCountry
         {| ip := "1.2.3.4"; dtAdded := 0; ports := Some "ssh"; days := None;
            country := Some "XX"; org := None; reason := None;
            status := None; dtExpired := None;
            working := mkWorking 16909060 16909060 |}.
Proof.
  assert (H : buildItem cfgPrecedence 0 "1.2.3.4" (Some "ssh")
    (Some (mkExtra None None (Some "XX") None None))
  = Normal (inr
      {| ip := "1.2.3.4"; dtAdded := 0; ports := Some "ssh"; days := None;
         country := Some "XX"; org := None; reason := None;
         status := None; dtExpired := None;
         working := mkWorking 16909060 16909060 |}))
    by (vm_compute; reflexivity).
  split; [exact H|].
  split; [exact (proj1 (proj2 (proj2 getBlockDays_precedence)) 0 _ H)|].
  apply (proj1 getBlockDays_precedence).
  intros c [= <-]. vm_compute. reflexivity.
Defined.

(** ** C9: the order of addresses *)

Lemma digit_range (c : ascii) (d : Z) : digit c = Some d -> 0 <= d <= 9.
Proof.
  unfold digit. destruct (_ && _) eqn:H; [|discriminate].
  intros [= <-]. apply andb_true_iff in H. destruct H as [H1 H2].
  apply Z.leb_le in H1, H2. lia.
Qed.

Lemma digits_nonneg (s : string) (acc v : Z) :
  0 <= acc -> digits acc s = Some v -> 0 <= v.
Proof.
  revert acc. induction s as [|c s IH]; simpl; intros acc Hacc.
  - intros [= <-]. exact Hacc.
  - destruct (digit c) as [d|] eqn:Hd; [|discriminate].
    apply digit_range in Hd. apply IH. lia.
Qed.

Lemma digits_app (s1 s2 : string) (acc : Z) :
  digits acc (s1 +:+ s2)
  = match digits acc s1 with Some v => digits v s2 | None => None end.
Proof.
  revert acc. induction s1 as [|c s1 IH]; simpl; intros acc; [reflexivity|].
  destruct (digit c); [apply IH | reflexivity].
Qed.

(** The last three of at least three digits are the number modulo one
    thousand. *)
Lemma digits_last3 (k : nat) (t : string) (acc v : Z) :
  0 <= acc -> String.length t = (k + 3)%nat -> digits acc t = Some v ->
  exists hi u, 0 <= hi /\ 0 <= u <= 999 /\ v = hi * 1000 + u
    /\ forall a, digits a (String.substring k 3 t) = Some (a * 1000 + u).
Proof.
  revert t acc. induction k as [|k IH]; intros t acc Hacc Hlen Hv.
  - destruct t as [|c1 [|c2 [|c3 [|c4 t]]]]; simpl in Hlen; try discriminate.
    simpl in Hv.
    destruct (digit c1) as [d1|] eqn:H1; [|discriminate].
    destruct (digit c2) as [d2|] eqn:H2; [|discriminate].
    destruct (digit c3) as [d3|] eqn:H3; [|discriminate].
    injection Hv as <-.
    pose proof (digit_range _ _ H1). pose proof (digit_range _ _ H2).
    pose proof (digit_range _ _ H3).
    exists acc, (d1 * 100 + d2 * 10 + d3).
    split; [exact Hacc|]. split; [lia|]. split; [lia|].
    intros a. simpl. rewrite H1, H2, H3. f_equal. lia.
  - destruct t as [|c t]; simpl in Hlen; [discriminate|].
    simpl in Hv. destruct (digit c) as [d|] eqn:Hd; [|discriminate].
    pose proof (digit_range _ _ Hd).
    apply (IH t (acc * 10 + d)); [lia | lia | exact Hv].
Qed.

(** Padding one octet: three digits of the same value. *)
Lemma pad_octet (s : string) (v : Z) :
  octet s = Some v ->
  0 <= v <= 255
  /\ forall a, digits a (sliceLast 3 ("000" +:+ s)) = Some (a * 1000 + v).
Proof.
  unfold octet, Number. intros H.
  assert (Hs : digits 0 s = Some v /\ v <= 255).
  { destruct s; [discriminate|].
    destruct (digits 0 (String a s)) as [n|]; [|discriminate].
    destruct (n <=? 255) eqn:Hle; [|discriminate].
    injection H as <-. apply Z.leb_le in Hle. auto. }
  destruct Hs as [Hd Hle].
  pose proof (digits_nonneg _ _ _ (Z.le_refl 0) Hd) as Hnn.
  split; [lia|].
  change ("000" +:+ s) with (String "0" (String "0" (String "0" s))).
  destruct (digits_last3 (String.length s)
              (String "0" (String "0" (String "0" s))) 0 v)
    as (hi & u & Hhi & Hu & Hv & Hall); [lia | simpl; lia | exact Hd |].
  assert (u = v) by lia. subst u.
  intros a. unfold sliceLast.
  replace (String.length (String "0" (String "0" (String "0" s))) - 3)%nat
    with (String.length s) by (simpl; lia).
  apply Hall.
Qed.

(** The key of a dotted quad is its four octets in base one thousand. *)
Lemma sortKey_dottedQuad (s : string) (x y z w : Z) :
  dottedQuad s = Some (x, y, z, w) ->
  sortKey s = Some (((x * 1000 + y) * 1000 + z) * 1000 + w)
  /\ 0 <= x <= 255 /\ 0 <= y <= 255 /\ 0 <= z <= 255 /\ 0 <= w <= 255.
Proof.
  unfold dottedQuad, sortKey. intros H.
  destruct (split "." s) as [|a [|b [|c [|d [|e l]]]]]; try discriminate.
  destruct (octet a) as [x'|] eqn:Ha; [|discriminate].
  destruct (octet b) as [y'|] eqn:Hb; [|discriminate].
  destruct (octet c) as [z'|] eqn:Hc; [|discriminate].
  destruct (octet d) as [w'|] eqn:Hd; [|discriminate].
  injection H as -> -> -> ->.
  destruct (pad_octet _ _ Ha) as [Hx Hpa], (pad_octet _ _ Hb) as [Hy Hpb],
    (pad_octet _ _ Hc) as [Hz Hpc], (pad_octet _ _ Hd) as [Hw Hpd].
  split; [|auto]. unfold Number, join. cbn [map fold_right].
  rewrite digits_app, Hpa. cbv iota. rewrite digits_app, Hpb. cbv iota.
  rewrite digits_app, Hpc. cbv iota. rewrite digits_app, Hpd. cbv iota.
  simpl. reflexivity.
Qed.

(** Base one thousand and base 256 order four octets alike. *)
Lemma octets_same_order (x y z w x' y' z' w' : Z) :
  0 <= x <= 255 -> 0 <= y <= 255 -> 0 <= z <= 255 -> 0 <= w <= 255 ->
  0 <= x' <= 255 -> 0 <= y' <= 255 -> 0 <= z' <= 255 -> 0 <= w' <= 255 ->
  ((((x * 1000 + y) * 1000 + z) * 1000 + w)
     - (((x' * 1000 + y') * 1000 + z') * 1000 + w') ?= 0)
  = ((((x * 256 + y) * 256 + z) * 256 + w)
       ?= (((x' * 256 + y') * 256 + z') * 256 + w')).
Proof.
  intros.
  destruct (Z.compare_spec
              (((x * 256 + y) * 256 + z) * 256 + w)
              (((x' * 256 + y') * 256 + z') * 256 + w')) as [E|L|G].
  - apply Z.compare_eq_iff.
    assert (x = x') by lia. assert (y = y') by lia. assert (z = z') by lia.
    lia.
  - apply Z.compare_lt_iff.
    destruct (Z.lt_trichotomy x x') as [?|[->|?]]; [lia| |lia].
    destruct (Z.lt_trichotomy y y') as [?|[->|?]]; [lia| |lia].
    destruct (Z.lt_trichotomy z z') as [?|[->|?]]; lia.
  - apply Z.compare_gt_iff.
    destruct (Z.lt_trichotomy x x') as [?|[->|?]]; [lia| |lia].
    destruct (Z.lt_trichotomy y y') as [?|[->|?]]; [lia| |lia].
    destruct (Z.lt_trichotomy z z') as [?|[->|?]]; lia.
Qed.

(** The comparator and the integers agree. *)
Lemma sortIPCompare_sign (a b : Item) (na nb : Z) :
  addressOf a = Some na -> addressOf b = Some nb ->
  0 <= na < 2 ^ 32 /\ 0 <= nb < 2 ^ 32
  /\ exists d, _sortIPCompare a b = Some d /\ (d ?= 0) = (na ?= nb).
Proof.
  unfold addressOf, toDecimal. intros Ha Hb.
  destruct (dottedQuad (baseAddress (ip a))) as [[[[x y] z] w]|] eqn:Hqa;
    [|discriminate].
  destruct (dottedQuad (baseAddress (ip b))) as [[[[x' y'] z'] w']|] eqn:Hqb;
    [|discriminate].
  injection Ha as <-. injection Hb as <-.
  destruct (sortKey_dottedQuad _ _ _ _ _ Hqa) as (Hka & Hx & Hy & Hz & Hw).
  destruct (sortKey_dottedQuad _ _ _ _ _ Hqb) as (Hkb & Hx' & Hy' & Hz' & Hw').
  split; [lia|]. split; [lia|].
  unfold _sortIPCompare. rewrite Hka, Hkb. eexists. split; [reflexivity|].
  now apply octets_same_order.
Qed.

Lemma stays_before_le (a b : Item) (na nb : Z) :
  addressOf a = Some na -> addressOf b = Some nb ->
  stays_before a b = (na <=? nb).
Proof.
  intros Ha Hb.
  destruct (sortIPCompare_sign a b na nb Ha Hb) as (_ & _ & d & Hd & Hsign).
  unfold stays_before. rewrite Hd. unfold Z.leb. now rewrite Hsign.
Qed.

Lemma ascending_trans (a b c : Item) :
  ascending a b -> ascending b c -> ascending a c.
Proof.
  intros (na & nb & Ha & Hb & Hab) (nb' & nc & Hb' & Hc & Hbc).
  rewrite Hb in Hb'. injection Hb' as <-.
  exists na, nc. repeat split; auto. lia.
Qed.

Lemma sortInsert_sorted (a : Item) (l : list Item) :
  is_Some (addressOf a) -> Forall (fun e => is_Some (addressOf e)) l ->
  StronglySorted ascending l -> StronglySorted ascending (sortInsert a l).
Proof.
  intros [na Ha] Hall Hs. induction Hs as [|b rest Hs IH Hb]; simpl.
  - repeat constructor.
  - apply Forall_cons_1 in Hall. destruct Hall as [[nb Hnb] Hall].
    rewrite (stays_before_le a b na nb Ha Hnb).
    destruct (na <=? nb) eqn:Hle.
    + apply Z.leb_le in Hle.
      assert (Hab : ascending a b) by (exists na, nb; auto).
      constructor; [now constructor|]. constructor; [exact Hab|].
      eapply Forall_impl; [exact Hb|]. intros c Hc.
      now apply (ascending_trans a b c).
    + apply Z.leb_gt in Hle.
      constructor; [now apply IH|].
      eapply Permutation_Forall; [symmetry; apply sortInsert_Permutation|].
      constructor; [|exact Hb]. exists nb, na. repeat split; auto. lia.
Qed.

(** On records with dotted-quad addresses the sort leaves the list in
    ascending order of the 32-bit integers. *)
Lemma sortByIP_sorted (l : list Item) :
  Forall (fun e => is_Some (addressOf e)) l ->
  StronglySorted ascending (sortByIP l).
Proof.
  induction 1 as [|a l Ha Hl IH]; simpl; [constructor|].
  apply sortInsert_sorted; [exact Ha | | exact IH].
  eapply Permutation_Forall; [symmetry; apply sortByIP_Permutation | exact Hl].
Qed.

(** C9.  For two records whose base addresses (the text before any
    slash) are dotted quads with octets in [0..255], the comparator
    returns a number whose sign is the comparison of the two addresses as
    unsigned 32-bit integers; sorting a list of such records leaves it
    in ascending order of those integers.  Hence 10.0.0.5, 9.255.255.255,
    10.0.0.255 are stored as 9.255.255.255, 10.0.0.5, 10.0.0.255, whether
    sorted at once or inserted one after the other. *)
Theorem sortIPCompare_orders_as_uint32 :
  (forall a b na nb,
      addressOf a = Some na -> addressOf b = Some nb ->
      0 <= na < 2 ^ 32 /\ 0 <= nb < 2 ^ 32
      /\ exists d, _sortIPCompare a b = Some d /\ (d ?= 0) = (na ?= nb))
  /\ (forall l, Forall (fun e => is_Some (addressOf e)) l ->
                StronglySorted ascending (sortByIP l)
                /\ Permutation (sortByIP l) l)
  /\ map ip (sortByIP [host "10.0.0.5" None 167772165;
                       host "9.255.255.255" None 167772159;
                       host "10.0.0.255" None 167772415])
     = ["9.255.255.255"; "10.0.0.5"; "10.0.0.255"]
  /\ map ip
       (itemsOf (add cfgSsh 0 "10.0.0.255" None (Some noExtra) false
          (itemsOf (add cfgSsh 0 "9.255.255.255" None (Some noExtra) false
             (itemsOf (add cfgSsh 0 "10.0.0.5" None (Some noExtra) false
                         []))))))
     = ["9.255.255.255"; "10.0.0.5"; "10.0.0.255"].
Proof.
  split; [exact sortIPCompare_sign|].
  split; [|split; vm_compute; reflexivity].
  intros l Hl. split; [now apply sortByIP_sorted | apply sortByIP_Permutation].
Qed.

(** The general part at 10.0.0.5/24 against 9.255.255.255: the
    comparator is positive, as is the comparison of the integers. *)
Lemma sortIPCompare_orders_as_uint32_witness :
  0 <= 167772165 < 2 ^ 32 /\ 0 <= 167772159 < 2 ^ 32
  /\ exists d,
       _sortIPCompare (block "10.0.0.5/24" None 167772160 167772415)
                      (host "9.255.255.255" None 167772159) = Some d
       /\ (d ?= 0) = (167772165 ?= 167772159).
Proof.
  apply (proj1 sortIPCompare_orders_as_uint32
           (block "10.0.0.5/24" None 167772160 167772415)
           (host "9.255.255.255" None 167772159)).
  - vm_compute. reflexivity.
  - vm_compute. reflexivity.
Defined.

(** ** C10: a call without metadata *)

(** C10 (the code departs from it).  [add] reads [extra.dtAdded] before
    it replaces a missing [extra]: whatever the address, the port-scope
    and the list, a call without the metadata argument throws a
    [TypeError], which leaves the [async] method as a rejected promise. *)
Theorem add_without_metadata_throws :
  forall cfg now ip0 p imp items,
    add cfg now ip0 p None imp items = TypeError.
Proof. reflexivity. Qed.

(** * Further properties *)

(** ** What the presence check reads *)

(** X1.  Records that have a status never block an insertion: the
    presence check, and with it every rejection of [add], is the same on
    the list and on its active part. *)
Theorem isAlreadyPresent_reads_active_records :
  (forall item items,
      isAlreadyPresent item items
      = isAlreadyPresent item (List.filter active items))
  /\ (forall cfg now ip0 p extra imp items,
        (add cfg now ip0 p extra imp items = Normal (AlreadyPresent, items)
         <-> add cfg now ip0 p extra imp (List.filter active items)
             = Normal (AlreadyPresent, List.filter active items))
        /\ (add cfg now ip0 p extra imp items = Normal (AlreadyCovered, items)
            <-> add cfg now ip0 p extra imp (List.filter active items)
                = Normal (AlreadyCovered, List.filter active items))).
Proof.
  assert (H : forall item items,
    isAlreadyPresent item items
    = isAlreadyPresent item (List.filter active items)).
  { intros item items. induction items as [|entry rest IH]; simpl; [reflexivity|].
    unfold active at 1. destruct (truthyN (status entry)) eqn:Hst; simpl.
    - exact IH.
    - rewrite Hst. now rewrite IH. }
  split; [exact H|].
  intros cfg now ip0 p extra imp items. unfold add.
  destruct (buildItem cfg now ip0 p extra) as [[o|item]|] eqn:Hb.
  - apply buildItem_refused in Hb.
    split; split; intros E; injection E as E; destruct Hb; congruence.
  - rewrite <- (H item items).
    destruct (isAlreadyPresent item items) as [[|]|].
    + split; split; intros; try reflexivity; discriminate.
    + split; split; intros; try reflexivity; discriminate.
    + split; split; intros E;
        repeat case_match; simplify_eq.
  - split; split; discriminate.
Qed.

(** ** When [add] goes through *)

Lemma checkExpired_None ip0 p (items : list Item) :
  checkExpired ip0 p items = None ->
  forall e, In e items -> expired e = true -> ip e = ip0 ->
            ~ scopeExact p (ports e).
Proof.
  induction items as [|item rest IH]; simpl; [intros _ e []|].
  intros H e [<-|Hin] Hex Hip Hsc.
  - assert (Hst : truthyN (status item) = true).
    { unfold expired in Hex. destruct (status item) as [s|]; [|discriminate].
      apply Z.eqb_eq in Hex. now subst. }
    rewrite Hst, Hex, Hip, String.eqb_refl in H. simpl in H.
    unfold scopeExact, unscoped, scoped in Hsc.
    destruct Hsc as [[Hu Hu']|(Hs & Hs' & Heq)].
    + rewrite Hu, Hu' in H. simpl in H. discriminate.
    + rewrite Hs, Hs' in H. simpl in H.
      rewrite Heq in H. rewrite (proj2 (looseEq_eq _ _) eq_refl) in H.
      discriminate.
  - apply (IH) with (e := e); auto.
    destruct (checkExpired _ _ rest); [exfalso | reflexivity].
    repeat case_match; simpl in *; discriminate.
Qed.

(** X2.  For a candidate that passes validation, [add] goes through
    (ends [Inserted] or [Reactivated]) exactly when no active record has
    the candidate's address string under a compatible port-scope and no
    active record of another address contains the candidate's range. *)
Theorem add_goes_through_iff cfg now ip0 p x imp items item :
  buildItem cfg now ip0 p (Some x) = Normal (inr item) ->
  (exists o items',
      add cfg now ip0 p (Some x) imp items = Normal (o, items')
      /\ (o = Inserted \/ o = Reactivated))
  <-> (forall e, In e items -> active e = true ->
         (ip e = ip0 -> ~ presenceCompatible p (ports e))
         /\ (ip e <> ip0 -> contains (working e) (working item) = false)).
Proof.
  intros Hb. destruct (buildItem_fields _ _ _ _ _ _ Hb) as (Hip & Hp & _).
  pose proof (isAlreadyPresent_None item items) as Hchar.
  rewrite Hip, Hp in Hchar. rewrite <- Hchar. clear Hchar. split.
  - intros (o & items' & Hadd & Ho).
    destruct (add_success _ _ _ _ _ _ _ _ _ Hadd Ho)
      as (x' & item' & [= <-] & Hb' & Hpres & _).
    rewrite Hb in Hb'. now injection Hb' as <-.
  - intros Hpres. unfold add. rewrite Hb, Hpres.
    destruct (checkExpired ip0 p (checkRedundancies item items)) as [i|] eqn:Hexp.
    + destruct (checkExpired_Some _ _ _ _ Hexp) as (old & Hold & _).
      rewrite Hold. eauto.
    + eauto.
Qed.

Lemma add_goes_through_iff_witness :
  exists o items',
    add cfgSsh 0 "10.0.0.5" (Some "ssh") (Some noExtra) false
      [host "10.0.0.5" (Some "web") 167772165;
       host "10.0.0.6" None 167772166] = Normal (o, items')
    /\ (o = Inserted \/ o = Reactivated).
Proof.
  apply (proj2 (add_goes_through_iff cfgSsh 0 "10.0.0.5" (Some "ssh") noExtra
                  false _ (host "10.0.0.5" (Some "ssh") 167772165)
                  ltac:(vm_compute; reflexivity))).
  intros e [<-|[<-|[]]] _; split.
  - intros _ [[H _]|[H|[_ H]]]; discriminate H.
  - intros H. exfalso. apply H. reflexivity.
  - intros H. discriminate H.
  - intros _. reflexivity.
Defined.

Lemma add_restore_cases cfg now ip0 p extra imp items o items' :
  add cfg now ip0 p extra imp items = Normal (o, items') ->
  o = Inserted \/ o = Reactivated ->
  (o = Reactivated
   <-> exists e, In e items /\ expired e = true /\ ip e = ip0
                 /\ scopeExact p (ports e)).
Proof.
  intros Hadd Ho.
  destruct (add_success _ _ _ _ _ _ _ _ _ Hadd Ho)
    as (x & item & -> & Hb & Hpres & Hcase).
  destruct Hcase as [(-> & Hexp & _)|(-> & i & old & Hexp & Hold & _)].
  - split; [discriminate|]. intros (e & Hin & Hex & Hip & Hsc). exfalso.
    apply (checkExpired_None _ _ _ Hexp e); auto.
    apply checkRedundancies_keeps_status; [exact Hin|].
    unfold active. unfold expired in Hex.
    destruct (status e) as [s|]; [|discriminate].
    apply Z.eqb_eq in Hex. now subst.
  - split; [|reflexivity]. intros _.
    destruct (checkExpired_Some _ _ _ _ Hexp)
      as (old' & Hold' & Hex & _ & Hoip & Hscope).
    exists old'. repeat split; auto.
    eapply checkRedundancies_In, list_elem_of_In, list_elem_of_lookup_2, Hold'.
Qed.

(** X3.  A call that goes through restores a record exactly when the
    list holds a record of status [1] with the candidate's address string
    and exactly its port-scope; otherwise it appends.  So [add] never
    appends a second record beside an expired one of the same address and
    port-scope. *)
Theorem add_restores_iff_expired_match cfg now ip0 p extra imp items o items' :
  add cfg now ip0 p extra imp items = Normal (o, items') ->
  o = Inserted \/ o = Reactivated ->
  (o = Reactivated
   <-> exists e, In e items /\ expired e = true /\ ip e = ip0
                 /\ scopeExact p (ports e)).
Proof. apply add_restore_cases. Qed.

Lemma add_restores_iff_expired_match_witness :
  Reactivated = Reactivated
  <-> exists e, In e test9Swept /\ expired e = true /\ ip e = "3.0.115.255"
                /\ scopeExact None (ports e).
Proof.
  apply (add_restores_iff_expired_match cfgSsh 0 "3.0.115.255" None
           (Some noExtra) false test9Swept Reactivated
           [restore (lapsed "3.0.115.255" None 50361343 0)
              (host "3.0.115.255" None 50361343)]).
  - vm_compute. reflexivity.
  - right. reflexivity.
Defined.

Lemma add_refused_unchanged cfg now ip0 p extra imp items o items' :
  add cfg now ip0 p extra imp items = Normal (o, items') ->
  o <> Inserted -> o <> Reactivated ->
  items' = items.
Proof.
  unfold add. intros H Hi Hr.
  destruct (buildItem cfg now ip0 p extra) as [[o'|item]|];
    [now injection H | | discriminate].
  destruct (isAlreadyPresent item items) as [[|]|];
    [now injection H | now injection H |].
  repeat case_match; simplify_eq; congruence.
Qed.

(** X4.  A call that ends otherwise than [Inserted] or [Reactivated]
    (unknown port group, unknown reason, already present, already
    covered) leaves the list as it was. *)
Theorem add_failure_keeps_list cfg now ip0 p extra imp items o items' :
  add cfg now ip0 p extra imp items = Normal (o, items') ->
  o <> Inserted -> o <> Reactivated ->
  items' = items.
Proof. apply add_refused_unchanged. Qed.

Lemma add_failure_keeps_list_witness :
  [host "10.0.0.5" None 167772165] = [host "10.0.0.5" None 167772165].
Proof.
  apply (add_failure_keeps_list cfgSsh 0 "10.0.0.9" (Some "web")
           (Some noExtra) false [host "10.0.0.5" None 167772165]
           UnknownPortGroup).
  - vm_compute. reflexivity.
  - discriminate.
  - discriminate.
Defined.

(** ** Removal *)

Lemma removeStep_eq ip0 p (item : Item) :
  removeStep ip0 p item
  = (((if truthyN (status item) then [item] else [])
        ++ (if removeMatch ip0 p item then [] else [item]))%list,
     removeMatch ip0 p item).
Proof.
  unfold removeStep, removeMatch.
  destruct (String.eqb (ip item) ip0); simpl; [|reflexivity].
  destruct (_ || _); [now rewrite app_nil_r | reflexivity].
Qed.

Lemma removeLoop_active ip0 p (items : list Item) :
  List.filter active (fst (removeLoop ip0 p items))
  = List.filter (fun e => active e && negb (removeMatch ip0 p e)) items.
Proof.
  induction items as [|item rest IH]; simpl; [reflexivity|].
  rewrite removeStep_eq.
  destruct (removeLoop ip0 p rest) as [newList found]. simpl in *.
  rewrite !List.filter_app, IH. unfold active at 1 2 3.
  destruct (truthyN (status item)) eqn:Hst, (removeMatch ip0 p item);
    simpl; unfold active; rewrite ?Hst; reflexivity.
Qed.

Lemma removeLoop_found ip0 p (items : list Item) :
  snd (removeLoop ip0 p items) = existsb (removeMatch ip0 p) items.
Proof.
  induction items as [|item rest IH]; simpl; [reflexivity|].
  rewrite removeStep_eq.
  destruct (removeLoop ip0 p rest) as [newList found]. simpl in *.
  now rewrite IH.
Qed.

Lemma removeLoop_In ip0 p (items : list Item) (e : Item) :
  In e (fst (removeLoop ip0 p items)) -> In e items.
Proof.
  induction items as [|item rest IH]; simpl; [tauto|].
  rewrite removeStep_eq.
  destruct (removeLoop ip0 p rest) as [newList found]. simpl in *.
  rewrite !in_app_iff.
  destruct (truthyN (status item)), (removeMatch ip0 p item);
    simpl; intuition.
Qed.

Lemma removeLoop_keeps_status ip0 p (items : list Item) (e : Item) :
  In e items -> active e = false -> In e (fst (removeLoop ip0 p items)).
Proof.
  induction items as [|item rest IH]; simpl; [tauto|].
  rewrite removeStep_eq.
  destruct (removeLoop ip0 p rest) as [newList found]. simpl in *.
  rewrite !in_app_iff.
  intros [<-|Hin] Ha; [|auto].
  unfold active in Ha. apply negb_false_iff in Ha. rewrite Ha.
  left. left. now left.
Qed.

Lemma filter_all (f : Item -> bool) (l : list Item) :
  (forall e, In e l -> f e = true) -> List.filter f l = l.
Proof.
  induction l as [|a l IH]; intros H; simpl; [reflexivity|].
  rewrite (H a (or_introl eq_refl)), IH; [reflexivity|].
  intros e He. apply H. now right.
Qed.

Lemma remove_facts ip0 p (items : list Item) :
  snd (remove ip0 p items) = existsb (removeMatch ip0 p) items
  /\ (snd (remove ip0 p items) = false -> fst (remove ip0 p items) = items)
  /\ List.filter active (fst (remove ip0 p items))
     = List.filter (fun e => active e && negb (removeMatch ip0 p e)) items
  /\ (forall e, In e (fst (remove ip0 p items)) -> In e items)
  /\ (forall e, In e items -> active e = false ->
                In e (fst (remove ip0 p items))).
Proof.
  unfold remove.
  pose proof (removeLoop_active ip0 p items) as Hact.
  pose proof (removeLoop_found ip0 p items) as Hfound.
  pose proof (removeLoop_In ip0 p items) as Hin.
  pose proof (removeLoop_keeps_status ip0 p items) as Hkeep.
  destruct (removeLoop ip0 p items) as [newList found]. simpl in *.
  destruct found; simpl.
  - repeat split; auto. discriminate.
  - repeat split; auto.
    apply List.filter_ext_in. intros e He.
    destruct (removeMatch ip0 p e) eqn:Hm; [|now rewrite andb_true_r].
    exfalso. symmetry in Hfound. rewrite <- not_true_iff_false in Hfound.
    apply Hfound, existsb_exists. eauto.
Qed.

(** X5.  [remove] reports a removal exactly when some record of the
    list, active or not, has the address string and a matching port-scope
    (both absent, or equal); otherwise the list is left as it was.  The
    active records afterwards are the active records that do not match,
    once each and in order; no record enters and every record that has a
    status is still there. *)
Theorem remove_effect ip0 p (items : list Item) :
  snd (remove ip0 p items) = existsb (removeMatch ip0 p) items
  /\ (snd (remove ip0 p items) = false -> fst (remove ip0 p items) = items)
  /\ List.filter active (fst (remove ip0 p items))
     = List.filter (fun e => active e && negb (removeMatch ip0 p e)) items
  /\ (forall e, In e (fst (remove ip0 p items)) -> In e items)
  /\ (forall e, In e items -> active e = false ->
                In e (fst (remove ip0 p items))).
Proof. apply remove_facts. Qed.

Lemma scopeExact_removeMatch ip0 p (e : Item) :
  ip e = ip0 -> scopeExact p (ports e) -> removeMatch ip0 p e = true.
Proof.
  unfold removeMatch, scopeExact, unscoped, scoped.
  intros -> [[Hu Hu']|(Hs & Hs' & Heq)]; rewrite String.eqb_refl; simpl.
  - now rewrite Hu, Hu'.
  - rewrite Hs, Hs', Heq. simpl. apply looseEq_eq. reflexivity.
Qed.

(** The record a successful call leaves for the address carries exactly
    the port-scope asked for. *)
Lemma add_success_record cfg now ip0 p extra imp items o items' :
  add cfg now ip0 p extra imp items = Normal (o, items') ->
  o = Inserted \/ o = Reactivated ->
  exists e, In e items' /\ active e = true /\ ip e = ip0
            /\ scopeExact p (ports e).
Proof.
  intros Hadd Ho.
  destruct (add_success _ _ _ _ _ _ _ _ _ Hadd Ho)
    as (x & item & -> & Hb & Hpres & Hcase).
  destruct (buildItem_fields _ _ _ _ _ _ Hb) as (Hip & Hp & Hst & _).
  destruct Hcase as [(-> & _ & ->)|(-> & i & old & Hexp & Hold & ->)].
  - exists item. rewrite settled_In, in_app_iff. simpl.
    repeat split; auto.
    + unfold active. now rewrite Hst.
    + rewrite Hp. apply scopeExact_refl.
  - destruct (checkExpired_Some _ _ _ _ Hexp)
      as (old' & Hold' & _ & _ & _ & Hscope).
    rewrite Hold in Hold'. injection Hold' as <-.
    exists (restore old item). rewrite settled_In. repeat split; auto.
    + apply list_elem_of_In, list_elem_of_lookup. exists i.
      apply list_lookup_insert_eq. now apply lookup_lt_Some in Hold.
    + simpl. rewrite Hp. destruct p; [apply scopeExact_refl | exact Hscope].
Qed.

Lemma count_filter (f g : Item -> bool) (l : list Item) :
  count f (List.filter g l) = count (fun e => g e && f e) l.
Proof.
  unfold count. induction l as [|a l IH]; simpl; [reflexivity|].
  destruct (g a); simpl; [destruct (f a); simpl; now rewrite IH | exact IH].
Qed.

Lemma count_le (f g : Item -> bool) (l : list Item) :
  (forall e, In e l -> f e = true -> g e = true) ->
  (count f l <= count g l)%nat.
Proof.
  induction l as [|a l IH]; intros H; [reflexivity|].
  rewrite !count_cons.
  assert (Hl : (count f l <= count g l)%nat).
  { apply IH. intros e He. apply H. now right. }
  destruct (f a) eqn:Hf; [rewrite (H a (or_introl eq_refl) Hf)|destruct (g a)]; lia.
Qed.

Lemma activeFor_split (a : string) (l : list Item) :
  count (activeFor a) l = count (heldFor a) (List.filter active l).
Proof. rewrite count_filter. reflexivity. Qed.

(** X6.  Removing, under the same port-scope, an address that [add] has
    just entered or restored reports a removal and leaves no active
    record for the address. *)
Theorem remove_undoes_add cfg now ip0 p extra imp items o items' :
  add cfg now ip0 p extra imp items = Normal (o, items') ->
  o = Inserted \/ o = Reactivated ->
  snd (remove ip0 p items') = true
  /\ count (activeFor ip0) (fst (remove ip0 p items')) = 0%nat.
Proof.
  intros Hadd Ho.
  destruct (add_success_single _ _ _ _ _ _ _ _ _ Hadd Ho) as [Hone _].
  destruct (add_success_record _ _ _ _ _ _ _ _ _ Hadd Ho)
    as (e & Hin & Hact & Hip & Hsc).
  destruct (remove_facts ip0 p items') as (Hfound & _ & Hfil & _).
  split.
  - rewrite Hfound. apply existsb_exists. exists e. split; [exact Hin|].
    now apply scopeExact_removeMatch.
  - rewrite activeFor_split, Hfil, count_filter.
    apply count_zero. intros x Hx.
    destruct (active x) eqn:Hax; [simpl | reflexivity].
    destruct (heldFor ip0 x) eqn:Hhx; [|now rewrite andb_false_r].
    rewrite andb_true_r. apply negb_false_iff.
    assert (Hxe : x = e).
    { unfold count in Hone.
      destruct (List.filter (activeFor ip0) items') as [|y [|z l]] eqn:Hf;
        try discriminate.
      assert (Hx' : In x [y]).
      { rewrite <- Hf. apply filter_In_iff. split; [exact Hx|].
        unfold activeFor. now rewrite Hax. }
      assert (He' : In e [y]).
      { rewrite <- Hf. apply filter_In_iff. split; [exact Hin|].
        unfold activeFor. now rewrite Hact, Hip, String.eqb_refl. }
      destruct Hx' as [<-|[]], He' as [<-|[]]. reflexivity. }
    subst x. now apply scopeExact_removeMatch.
Qed.

Lemma remove_undoes_add_witness :
  snd (remove "10.0.0.5" (Some "ssh")
         [host "10.0.0.5" (Some "ssh") 167772165]) = true
  /\ count (activeFor "10.0.0.5")
       (fst (remove "10.0.0.5" (Some "ssh")
               [host "10.0.0.5" (Some "ssh") 167772165])) = 0%nat.
Proof.
  apply (remove_undoes_add cfgSsh 0 "10.0.0.5" (Some "ssh") (Some noExtra)
           false [] Inserted).
  - vm_compute. reflexivity.
  - left. reflexivity.
Defined.

(** ** One active record for an address *)

Lemma count_settled_le (f : Item -> bool) (imp : bool) (l : list Item) (n : nat) :
  (count f l <= n)%nat -> (count f (settled imp l) <= n)%nat.
Proof. now rewrite count_settled. Qed.

Lemma checkRedundancies_count (a : string) (item : Item) (items : list Item) :
  (count (activeFor a) (checkRedundancies item items)
   <= count (activeFor a) items)%nat.
Proof.
  rewrite activeFor_split, checkRedundancies_active, count_filter.
  apply count_le. intros e _ H. unfold survives, activeFor in *.
  destruct (active e); simpl in *; [|discriminate].
  now rewrite andb_true_iff in H.
Qed.

Lemma expiryLoop_count (a : string) cfg clock (k : nat) (items : list Item) :
  (count (activeFor a) (fst (expiryLoop cfg clock k items))
   <= count (activeFor a) items)%nat.
Proof.
  revert k. induction items as [|item rest IH]; intros k; simpl; [reflexivity|].
  specialize (IH (S k)).
  destruct (expiryLoop cfg clock (S k) rest) as [newList rem]. simpl in IH.
  repeat case_match; simpl; rewrite ?count_cons; simpl;
    destruct (activeFor a item); lia.
Qed.

Lemma add_uniqueActive cfg now ip0 p extra imp (items : list Item) o items' :
  uniqueActive items ->
  add cfg now ip0 p extra imp items = Normal (o, items') ->
  uniqueActive items'.
Proof.
  intros Hu Hadd.
  assert (Hcases : (o = Inserted \/ o = Reactivated)
                   \/ (o <> Inserted /\ o <> Reactivated))
    by (destruct o; auto; right; split; discriminate).
  destruct Hcases as [Ho|[Hi Hr]];
    [|now rewrite (add_refused_unchanged _ _ _ _ _ _ _ _ _ Hadd Hi Hr)].
  intros a.
  destruct (add_success_single _ _ _ _ _ _ _ _ _ Hadd Ho) as [Hone _].
  destruct (decide (a = ip0)) as [->|Hne]; [lia|].
  destruct (add_success _ _ _ _ _ _ _ _ _ Hadd Ho)
    as (x & item & -> & Hb & Hpres & Hcase).
  destruct (buildItem_fields _ _ _ _ _ _ Hb) as (Hip & _).
  pose proof (checkRedundancies_count a item items) as Hle.
  specialize (Hu a).
  assert (Hnew : forall r, ip r = ip0 -> activeFor a r = false).
  { intros r Hr. unfold activeFor. rewrite Hr.
    apply andb_false_iff. right. apply String.eqb_neq. congruence. }
  destruct Hcase as [(_ & _ & ->)|(_ & i & old & Hexp & Hold & ->)];
    apply count_settled_le.
  - rewrite count_app, count_cons, (Hnew item Hip).
    change (count (activeFor a) []) with 0%nat. cbv iota. lia.
  - pose proof (count_insert (activeFor a) _ _ _ (restore old item) Hold) as Hc.
    rewrite (Hnew (restore old item) Hip) in Hc. cbv iota in Hc.
    destruct (activeFor a old); lia.
Qed.

(** X7.  [add] keeps at most one active object for every address string
    (a restored object shows in every entry that holds it); so, on a list
    that holds no object twice, a list with at most one active record for
    every address string still has at most one after [add], whatever its
    outcome.  [remove], [removeExpired] and [sortByIP] keep at most one
    active record for every address string. *)
Theorem uniqueActive_preserved :
  (forall cfg now ip0 p extra imp s o s',
      uniqueObject s ->
      Shared.add cfg now ip0 p extra imp s = Normal (o, s') ->
      uniqueObject s')
  /\ (forall cfg now ip0 p extra imp s o s',
        List.NoDup (map fst s) ->
        uniqueActive (Shared.contents s) ->
        Shared.add cfg now ip0 p extra imp s = Normal (o, s') ->
        uniqueActive (Shared.contents s'))
  /\ (forall items,
        uniqueActive items ->
        (forall ip0 p, uniqueActive (fst (remove ip0 p items)))
        /\ (forall cfg clock, uniqueActive (fst (removeExpired cfg clock items)))
        /\ uniqueActive (sortByIP items)).
Proof.
  split; [|split].
  - intros cfg now ip0 p extra imp s o s' Hu Hadd.
    assert (Hcases : (o = Inserted \/ o = Reactivated)
                     \/ (o <> Inserted /\ o <> Reactivated))
      by (destruct o; auto; right; split; discriminate).
    destruct Hcases as [Ho|[Hi Hr]];
      [|now rewrite (shared_add_refused _ _ _ _ _ _ _ _ _ Hadd Hi Hr)].
    destruct (shared_add_active _ _ _ _ _ _ _ _ _ Hadd Ho)
      as (ob & _ & Hiff & _ & Hold & _).
    intros a c1 c2 Hc1 Hc2 Ha1 Ha2.
    destruct (decide (a = ip0)) as [->|Hne].
    + apply (Hiff c1 Hc1) in Ha1. apply (Hiff c2 Hc2) in Ha2. congruence.
    + assert (Hother : forall c, In c s' -> activeFor a (snd c) = true ->
                                 In c s).
      { intros c Hc Ha. apply Hold; [exact Hc|]. intros Hob.
        apply (Hiff c Hc) in Hob. unfold activeFor in Ha, Hob.
        apply andb_true_iff in Ha as [_ Ha]. apply andb_true_iff in Hob as [_ Hob].
        apply String.eqb_eq in Ha, Hob. congruence. }
      apply (Hu a); auto.
  - intros cfg now ip0 p extra imp s o s' Hnd Hu Hadd.
    pose proof (add_contents cfg now ip0 p extra imp s Hnd) as Hview.
    rewrite Hadd in Hview. exact (add_uniqueActive _ _ _ _ _ _ _ _ _ Hu Hview).
  - intros items Hu. split; [|split].
    + intros ip0 p a.
      destruct (remove_facts ip0 p items) as (_ & _ & Hfil & _).
      rewrite activeFor_split, Hfil, count_filter.
      etransitivity; [|apply (Hu a)].
      apply count_le. intros e _ H. unfold activeFor.
      destruct (active e); simpl in *; [|discriminate].
      now rewrite andb_true_iff in H.
    + intros cfg clock a. unfold removeExpired.
      pose proof (expiryLoop_count a cfg clock 0 items) as Hle.
      destruct (expiryLoop cfg clock 0 items) as [newList rem]. simpl in Hle.
      specialize (Hu a). destruct (0 <? rem)%nat; simpl; lia.
    + intros a. rewrite count_sortByIP. apply Hu.
Qed.

(** The first part on [heldTwice]: the restored object is held by two
    entries, and is the one active object of its address. *)
Lemma uniqueActive_preserved_witness :
  uniqueObject
    [ (0%nat, host "2.2.2.2" None 33686018);
      (0%nat, host "2.2.2.2" None 33686018);
      (1%nat, host "1.1.1.1" None 16843009) ].
Proof.
  apply (proj1 uniqueActive_preserved cfgSsh 0 "2.2.2.2" None (Some noExtra)
           true heldTwice Reactivated).
  - intros a c1 c2 [<-|[<-|[<-|[]]]] [<-|[<-|[<-|[]]]]; simpl;
      try reflexivity; try discriminate.
  - vm_compute. reflexivity.
Defined.

(** ** The sweep at one instant *)

Lemma due_expire cfg now t (e : Item) : due cfg now (expire t e) = due cfg now e.
Proof. reflexivity. Qed.

Lemma expiryLoop_at cfg now (k : nat) (items : list Item) :
  expiryLoop cfg (fun _ => now) k items
  = (if expireDeletes cfg
     then List.filter (fun e => negb (due cfg now e)) items
     else map (fun e => if due cfg now e then expire now e else e) items,
     count (due cfg now) items).
Proof.
  revert k. induction items as [|item rest IH]; intros k; simpl.
  - now destruct (expireDeletes cfg).
  - rewrite (IH (S k)), count_cons.
    destruct (getBlockDays cfg item =? 0) eqn:Hz.
    { assert (Hd : due cfg now item = false)
        by (unfold due; now rewrite Hz).
      rewrite Hd. now destruct (expireDeletes cfg). }
    destruct (now - dtAdded item <? 86400000 * getBlockDays cfg item) eqn:Hlt.
    { assert (Hd : due cfg now item = false)
        by (unfold due; now rewrite Hz, Hlt).
      rewrite Hd. now destruct (expireDeletes cfg). }
    assert (Hd : due cfg now item = true)
      by (unfold due; now rewrite Hz, Hlt).
    rewrite Hd. now destruct (expireDeletes cfg).
Qed.

Lemma count_zero_inv (f : Item -> bool) (l : list Item) :
  count f l = 0%nat -> forall e, In e l -> f e = false.
Proof.
  induction l as [|a l IH]; [intros _ e []|].
  rewrite count_cons. intros H e [<-|He].
  - destruct (f a); [discriminate | reflexivity].
  - apply IH; [destruct (f a); [discriminate | exact H] | exact He].
Qed.

Lemma removeExpired_at cfg now (items : list Item) :
  removeExpired cfg (fun _ => now) items
  = (if expireDeletes cfg
     then List.filter (fun e => negb (due cfg now e)) items
     else map (fun e => if due cfg now e then expire now e else e) items,
     count (due cfg now) items).
Proof.
  unfold removeExpired. rewrite expiryLoop_at.
  destruct (0 <? count (due cfg now) items)%nat eqn:Hpos; [reflexivity|].
  apply Nat.ltb_ge in Hpos.
  assert (Hz : count (due cfg now) items = 0%nat) by lia.
  pose proof (count_zero_inv _ _ Hz) as Hnone. f_equal.
  destruct (expireDeletes cfg).
  - symmetry. apply filter_all. intros e He. now rewrite (Hnone e He).
  - rewrite <- (map_id items) at 1. apply map_ext_in.
    intros e He. now rewrite (Hnone e He).
Qed.


Lemma count_map_same (f : Item -> bool) (g : Item -> Item) (l : list Item) :
  (forall e, f (g e) = f e) -> count f (map g l) = count f l.
Proof.
  intros H. induction l as [|a l IH]; [reflexivity|].
  simpl. now rewrite !count_cons, H, IH.
Qed.

(** X9.  A second sweep at the same instant leaves the list that the
    first one left.  Without [expireDeletes] it counts the same records
    again; with it, it counts none. *)
Theorem removeExpired_twice cfg now (items : list Item) :
  fst (removeExpired cfg (fun _ => now)
         (fst (removeExpired cfg (fun _ => now) items)))
  = fst (removeExpired cfg (fun _ => now) items)
  /\ snd (removeExpired cfg (fun _ => now)
            (fst (removeExpired cfg (fun _ => now) items)))
     = (if expireDeletes cfg then 0%nat
        else snd (removeExpired cfg (fun _ => now) items)).
Proof.
  rewrite !removeExpired_at. simpl.
  destruct (expireDeletes cfg); simpl; split.
  - apply filter_all. intros e He. now apply filter_In_iff in He.
  - apply count_zero. intros e He. apply filter_In_iff in He.
    now apply negb_true_iff.
  - rewrite map_map. apply map_ext. intros e.
    destruct (due cfg now e) eqn:Hd; [|now rewrite Hd].
    rewrite due_expire, Hd. reflexivity.
  - apply count_map_same. intros e.
    destruct (due cfg now e) eqn:Hd; [now rewrite due_expire | exact Hd].
Qed.

(** ** The sort *)

Lemma dotted_sortByIP (l : list Item) :
  Forall dotted l -> Forall dotted (sortByIP l).
Proof.
  intros H. eapply Permutation_Forall; [symmetry; apply sortByIP_Permutation|].
  exact H.
Qed.

Lemma sortInsert_least (a : Item) (l : list Item) :
  Forall (ascending a) l -> sortInsert a l = a :: l.
Proof.
  destruct l as [|b rest]; [reflexivity|]. intros H.
  apply Forall_cons_1 in H. destruct H as [(na & nb & Ha & Hb & Hle) _].
  simpl. rewrite (stays_before_le a b na nb Ha Hb).
  apply Z.leb_le in Hle. now rewrite Hle.
Qed.

Lemma sortByIP_fixpoint (l : list Item) :
  StronglySorted ascending l -> sortByIP l = l.
Proof.
  induction 1 as [|a l Hs IH Ha]; [reflexivity|].
  simpl. rewrite IH. now apply sortInsert_least.
Qed.

(** X10.  On records with dotted-quad base addresses [sortByIP] leaves a
    list that is already in ascending order as it is, and sorting twice
    is sorting once. *)
Theorem sortByIP_idempotent (l : list Item) :
  Forall dotted l ->
  sortByIP (sortByIP l) = sortByIP l
  /\ (StronglySorted ascending l -> sortByIP l = l).
Proof.
  intros Hd. split; [|apply sortByIP_fixpoint].
  apply sortByIP_fixpoint. now apply sortByIP_sorted.
Qed.

Lemma sortByIP_idempotent_witness :
  sortByIP (sortByIP [host "10.0.0.5" None 167772165;
                      host "9.255.255.255" None 167772159])
  = sortByIP [host "10.0.0.5" None 167772165;
              host "9.255.255.255" None 167772159].
Proof.
  apply (sortByIP_idempotent [host "10.0.0.5" None 167772165;
                              host "9.255.255.255" None 167772159]).
  repeat constructor; vm_compute; eauto.
Defined.

Lemma sortInsert_atAddress (n : Z) (a : Item) (l : list Item) :
  dotted a -> Forall dotted l ->
  List.filter (atAddress n) (sortInsert a l)
  = List.filter (atAddress n) (a :: l).
Proof.
  intros [na Ha] Hl. induction Hl as [|b rest [nb Hb] Hrest IH]; [reflexivity|].
  simpl. rewrite (stays_before_le a b na nb Ha Hb).
  destruct (na <=? nb) eqn:Hle; [reflexivity|].
  apply Z.leb_gt in Hle. simpl. rewrite IH. simpl.
  unfold atAddress. rewrite Ha, Hb.
  destruct (na =? n) eqn:Ea, (nb =? n) eqn:Eb; try reflexivity.
  apply Z.eqb_eq in Ea, Eb. lia.
Qed.

(** X11.  [sortByIP] is stable on records with dotted-quad base
    addresses: the records that share a base address, whatever their CIDR
    suffix, come out in the order they had. *)
Theorem sortByIP_stable (n : Z) (l : list Item) :
  Forall dotted l ->
  List.filter (atAddress n) (sortByIP l) = List.filter (atAddress n) l.
Proof.
  induction 1 as [|a l Ha Hl IH]; [reflexivity|].
  simpl. rewrite sortInsert_atAddress; [|exact Ha|now apply dotted_sortByIP].
  simpl. now rewrite IH.
Qed.

Lemma sortByIP_stable_witness :
  List.filter (atAddress 167772160)
    (sortByIP [block "10.0.0.0/24" (Some "ssh") 167772160 167772415;
               host "9.9.9.9" None 151587081;
               block "10.0.0.0/16" None 167772160 167837695])
  = List.filter (atAddress 167772160)
      [block "10.0.0.0/24" (Some "ssh") 167772160 167772415;
       host "9.9.9.9" None 151587081;
       block "10.0.0.0/16" None 167772160 167837695].
Proof.
  apply sortByIP_stable.
  repeat constructor; vm_compute; eauto.
Defined.

(** X12.  After a call of [add] that goes through outside an import, a
    list of records with dotted-quad base addresses is in ascending order
    of the 32-bit addresses. *)
Theorem add_leaves_list_sorted cfg now ip0 p extra items o items' :
  Forall dotted items ->
  is_Some (toDecimal (baseAddress ip0)) ->
  add cfg now ip0 p extra false items = Normal (o, items') ->
  o = Inserted \/ o = Reactivated ->
  StronglySorted ascending items' /\ Forall dotted items'.
Proof.
  intros Hd Hip0 Hadd Ho.
  destruct (add_success _ _ _ _ _ _ _ _ _ Hadd Ho)
    as (x & item & -> & Hb & Hpres & Hcase).
  destruct (buildItem_fields _ _ _ _ _ _ Hb) as (Hip & _).
  assert (Hcr : Forall dotted (checkRedundancies item items)).
  { apply Forall_forall. intros e He.
    apply list_elem_of_In, checkRedundancies_In in He.
    rewrite Forall_forall in Hd. now apply Hd, list_elem_of_In. }
  assert (Hnew : forall r, ip r = ip0 -> dotted r).
  { intros r Hr. unfold dotted, addressOf. now rewrite Hr. }
  assert (Hl : exists l, items' = sortByIP l /\ Forall dotted l).
  { destruct Hcase as [(_ & _ & ->)|(_ & i & old & Hexp & Hold & ->)];
      eexists; (split; [reflexivity|]).
    - apply Forall_app. split; [exact Hcr|]. constructor; [|constructor].
      now apply Hnew.
    - apply Forall_insert; [exact Hcr|]. now apply Hnew. }
  destruct Hl as (l & -> & Hl).
  split; [now apply sortByIP_sorted | now apply dotted_sortByIP].
Qed.

Lemma add_leaves_list_sorted_witness :
  StronglySorted ascending
    [host "9.255.255.255" None 167772159; host "10.0.0.5" None 167772165]
  /\ Forall dotted
       [host "9.255.255.255" None 167772159; host "10.0.0.5" None 167772165].
Proof.
  apply (add_leaves_list_sorted cfgSsh 0 "9.255.255.255" None (Some noExtra)
           [host "10.0.0.5" None 167772165] Inserted).
  - repeat constructor; vm_compute; eauto.
  - vm_compute. eauto.
  - vm_compute. reflexivity.
  - left. reflexivity.
Defined.

(** ** Listing and searching *)









(** ** Sorting by date *)

Lemma sortBy_date_insert (a : Item) (l : list Item) :
  sortInsertBy _sortDateCompare a l = a :: l.
Proof. destruct l; reflexivity. Qed.

Lemma sortBy_ip_insert (a : Item) (l : list Item) :
  sortInsertBy _sortIPCompare a l = sortInsert a l.
Proof.
  induction l as [|b l IH]; simpl; [reflexivity|].
  unfold stays_before. now rewrite IH.
Qed.

(** X15.  [sortByDate] never reorders: its comparator is [NaN] for every
    pair of records, which the sort reads as a tie, and the sort is
    stable.  (The same sort under [_sortIPCompare] is [sortByIP].) *)
Theorem sortByDate_keeps_order :
  (forall items, sortByDate items = items)
  /\ (forall items, sortBy _sortIPCompare items = sortByIP items).
Proof.
  split; intros items; induction items as [|a l IH]; try reflexivity.
  - unfold sortByDate, sortBy in *. simpl. rewrite IH.
    apply sortBy_date_insert.
  - unfold sortBy in *. simpl. rewrite IH. apply sortBy_ip_insert.
Qed.

(** ** Padding *)

Lemma strlen_app (s t : string) :
  String.length (s +:+ t) = (String.length s + String.length t)%nat.
Proof.
  induction s as [|a s IH]; [reflexivity|].
  change (String a s +:+ t) with (String a (s +:+ t)). simpl. now rewrite IH.
Qed.

Lemma substring_0_length (n : nat) (s : string) :
  (n <= String.length s)%nat -> String.length (String.substring 0 n s) = n.
Proof.
  revert s. induction n as [|n IH]; intros s H.
  - now destruct s.
  - destruct s as [|a s]; simpl in *; [lia|]. rewrite IH; [reflexivity | lia].
Qed.

Lemma substring_length (k n : nat) (s : string) :
  (k + n <= String.length s)%nat ->
  String.length (String.substring k n s) = n.
Proof.
  revert s. induction k as [|k IH]; intros s H.
  - now apply substring_0_length.
  - destruct s as [|a s]; simpl in *; [lia|]. apply IH. lia.
Qed.

Lemma substring_0_app_short (n : nat) (s t : string) :
  (n <= String.length s)%nat ->
  String.substring 0 n (s +:+ t) = String.substring 0 n s.
Proof.
  revert s. induction n as [|n IH]; intros s H.
  - destruct (s +:+ t); destruct s; reflexivity.
  - destruct s as [|a s]; simpl in H; [lia|].
    change (String a s +:+ t) with (String a (s +:+ t)). simpl.
    rewrite IH; [reflexivity | lia].
Qed.

Lemma substring_0_app_long (n : nat) (s t : string) :
  (String.length s <= n)%nat ->
  String.substring 0 n (s +:+ t)
  = s +:+ String.substring 0 (n - String.length s) t.
Proof.
  revert n. induction s as [|a s IH]; intros n H.
  - simpl. now rewrite Nat.sub_0_r.
  - destruct n as [|n]; simpl in H; [lia|].
    change (String a s +:+ t) with (String a (s +:+ t)).
    change (String a s +:+ String.substring 0 (S n - String.length (String a s)) t)
      with (String a (s +:+ String.substring 0 (n - String.length s) t)).
    simpl. rewrite IH; [reflexivity | lia].
Qed.

Lemma substring_skip_app (p s : string) (k n : nat) :
  String.substring (String.length p + k) n (p +:+ s) = String.substring k n s.
Proof.
  induction p as [|a p IH]; [reflexivity|].
  change (String a p +:+ s) with (String a (p +:+ s)). simpl. exact IH.
Qed.

(** X16.  [_pad] returns [pad] for an [undefined] string.  Padding on
    the right always gives [pad.length] characters: the string followed
    by the start of [pad] when it fits, its first [pad.length]
    characters when it does not.  Padding on the left with a nonempty
    [pad] gives [pad.length] characters too, the last ones of the string
    when it is at least that long. *)
Theorem pad_shape (pad s : string) :
  (forall b, _pad pad None b = pad)
  /\ String.length (_pad pad (Some s) false) = String.length pad
  /\ ((String.length s <= String.length pad)%nat ->
      _pad pad (Some s) false
      = s +:+ String.substring 0 (String.length pad - String.length s) pad)
  /\ ((String.length pad <= String.length s)%nat ->
      _pad pad (Some s) false = String.substring 0 (String.length pad) s)
  /\ (pad <> EmptyString ->
      String.length (_pad pad (Some s) true) = String.length pad)
  /\ (pad <> EmptyString -> (String.length pad <= String.length s)%nat ->
      _pad pad (Some s) true
      = String.substring (String.length s - String.length pad)
          (String.length pad) s).
Proof.
  split; [reflexivity|]. unfold _pad.
  split; [|split; [|split; [|split]]].
  - apply substring_0_length. rewrite strlen_app. lia.
  - intros H. now apply substring_0_app_long.
  - intros H. now apply substring_0_app_short.
  - intros Hne. unfold sliceNeg.
    destruct (String.length pad) as [|n] eqn:Hlen;
      [destruct pad; [congruence | discriminate]|].
    apply substring_length. rewrite strlen_app. lia.
  - intros Hne Hle. unfold sliceNeg.
    destruct (String.length pad) as [|n] eqn:Hlen;
      [destruct pad; [congruence | discriminate]|].
    rewrite strlen_app, Hlen.
    replace (S n + String.length s - S n)%nat
      with (String.length pad + (String.length s - S n))%nat by lia.
    apply substring_skip_app.
Qed.

(** ** The range kept with a record *)

Lemma setWorking_same (e : Item) : setWorking e (working e) = e.
Proof. now destruct e. Qed.

Lemma readLoop_coherent (parsed : list Item) : coherent (readLoop parsed).
Proof.
  induction parsed as [|item rest IH]; simpl; [intros e []|].
  destruct (_addWorking (ip item)) as [w|] eqn:Hw; [|intros e []].
  intros e [<-|He]; [exact Hw | now apply IH].
Qed.

(** X17.  The range stored with a record is the one its address gives:
    [read] without [readWorking] always leaves such a list, and a list of
    this kind stays so under [sortByIP] and under an [add] that is part
    of an import, which does not write. *)
Theorem coherent_preserved :
  (forall file previous, coherent (read true false file previous))
  /\ (forall items, coherent items -> coherent (sortByIP items))
  /\ (forall cfg now ip0 p extra s o s',
        coherent (Shared.contents s) ->
        Shared.add cfg now ip0 p extra true s = Normal (o, s') ->
        coherent (Shared.contents s')).
Proof.
  split; [|split].
  - intros [parsed|] previous; simpl; [apply readLoop_coherent | intros e []].
  - intros items Hc e He. apply Hc. now apply sortByIP_In.
  - intros cfg now ip0 p extra s o s' Hc Hadd.
    assert (Hcases : (o = Inserted \/ o = Reactivated)
                     \/ (o <> Inserted /\ o <> Reactivated))
      by (destruct o; auto; right; split; discriminate).
    destruct Hcases as [Ho|[Hi Hr]];
      [|now rewrite (shared_add_refused _ _ _ _ _ _ _ _ _ Hadd Hi Hr)].
    destruct (shared_add_cells _ _ _ _ _ _ _ _ _ Hadd Ho)
      as (x & item & ob & r & -> & Hb & _ & Hcells & Hrip & _ & _ & Hrw & _).
    destruct (buildItem_fields _ _ _ _ _ _ Hb) as (_ & _ & _ & _ & _ & _ & Hw).
    intros e He. apply shared_contents_In in He. destruct He as (c & Hc' & <-).
    apply Hcells in Hc'. destruct Hc' as [->|[Hc' _]]; simpl.
    + now rewrite Hrip, Hrw.
    + apply Hc, shared_contents_In. exists c. split; [|reflexivity].
      now apply (shared_checkRedundancies_In item).
Qed.

Lemma coherent_preserved_witness :
  coherent (sortByIP [host "10.0.0.5" None 167772165])
  /\ coherent
       (Shared.contents
          (cellsOf (Shared.add cfgSsh 0 "10.0.0.9" None (Some noExtra) true
                      [(0%nat, host "10.0.0.5" None 167772165)]))).
Proof.
  assert (H : coherent [host "10.0.0.5" None 167772165]).
  { intros e [<-|[]]. vm_compute. reflexivity. }
  split.
  - apply (proj1 (proj2 coherent_preserved) _ H).
  - apply (proj2 (proj2 coherent_preserved) cfgSsh 0 "10.0.0.9" None
             (Some noExtra) [(0%nat, host "10.0.0.5" None 167772165)] Inserted).
    + exact H.
    + vm_compute. reflexivity.
Defined.

(** ** Loading *)

Lemma readLoop_app_bad (good rest : list Item) (bad : Item) :
  _addWorking (ip bad) = TypeError ->
  readLoop (good ++ bad :: rest) = readLoop good.
Proof.
  intros Hbad. induction good as [|item good IH]; simpl.
  - now rewrite Hbad.
  - destruct (_addWorking (ip item)); [now rewrite IH | reflexivity].
Qed.

Lemma readLoop_same (parsed : list Item) :
  coherent parsed -> readLoop parsed = parsed.
Proof.
  induction parsed as [|item rest IH]; intros Hc; simpl; [reflexivity|].
  rewrite (Hc item (or_introl eq_refl)), setWorking_same, IH; [reflexivity|].
  intros e He. apply Hc. now right.
Qed.

(** X18.  [read] does nothing without [io] and leaves the list empty
    when the file is missing or is not JSON.  Without [readWorking] the
    ranges are computed afresh, whatever the file carried: records whose
    range was up to date come back as they were, in order; a record whose
    address gives no range ends the load, so that it and every record
    after it are lost while the records before it are kept. *)
Theorem read_effect :
  (forall readWorking file items, read false readWorking file items = items)
  /\ (forall readWorking items, read true readWorking None items = [])
  /\ (forall parsed items,
        coherent parsed -> read true false (Some parsed) items = parsed)
  /\ (forall good bad rest items,
        _addWorking (ip bad) = TypeError ->
        read true false (Some (good ++ bad :: rest)%list) items
        = read true false (Some good) items)
  /\ (forall parsed items,
        map ip (read true false (Some parsed) items)
        = firstn (length (read true false (Some parsed) items))
            (map ip parsed)).
Proof.
  split; [reflexivity|]. split; [reflexivity|]. unfold read. simpl.
  split; [intros parsed items; apply readLoop_same|].
  split; [intros good bad rest items; apply readLoop_app_bad|].
  intros parsed items. induction parsed as [|item rest IH]; simpl;
    [reflexivity|].
  destruct (_addWorking (ip item)); simpl; [now rewrite IH | reflexivity].
Qed.

Lemma read_effect_witness :
  read true false
    (Some ([host "10.0.0.5" None 0] ++ host "10.0.0" None 0
             :: [host "10.0.0.6" None 0])%list) []
  = read true false (Some [host "10.0.0.5" None 0]) [].
Proof.
  apply (proj1 (proj2 (proj2 (proj2 read_effect)))).
  vm_compute. reflexivity.
Defined.

(** ** Bare addresses *)

Lemma hasChar_app (c : ascii) (s t : string) :
  hasChar c (s +:+ t) = hasChar c s || hasChar c t.
Proof.
  induction s as [|a s IH]; [reflexivity|].
  change (String a s +:+ t) with (String a (s +:+ t)). simpl.
  now rewrite IH, orb_assoc.
Qed.

Lemma split_app_sep (c : ascii) (s t : string) :
  hasChar c s = false ->
  split c (s +:+ String c t) = s :: split c t.
Proof.
  induction s as [|a s IH]; intros H.
  - change (EmptyString +:+ String c t) with (String c t). simpl.
    now rewrite Ascii.eqb_refl.
  - change (String a s +:+ String c t) with (String a (s +:+ String c t)).
    simpl in *. apply orb_false_iff in H. destruct H as [Ha Hs].
    now rewrite Ha, (IH Hs).
Qed.

Lemma subnetMask_bare (ip0 : string) :
  isCIDR ip0 = false ->
  WhoIsHelper.subnetMask ip0 = calculateSubnetMask ip0 "32"
  /\ WhoIsHelper.subnetMask (ip0 +:+ "/32") = calculateSubnetMask ip0 "32".
Proof.
  unfold isCIDR. intros H.
  assert (Hs : split "/" (ip0 +:+ "/32") = [ip0; "32"]).
  { change "/32" with (String "/" "32"). now rewrite split_app_sep. }
  assert (Hh : hasChar "/" (ip0 +:+ "/32") = true).
  { rewrite hasChar_app. simpl. apply orb_true_r. }
  unfold WhoIsHelper.subnetMask. rewrite H, Hh, Hs. auto.
Qed.

(** X19.  An address without a slash is given the range of the address
    followed by [/32] (the suffix is added once in [_addWorking] and
    looked for again in [subnetMask]).  The two texts remain different
    address strings: with the [/32] form active in the list, and no
    active record under the bare text, inserting the bare address ends
    [AlreadyCovered], not [AlreadyPresent]. *)
Theorem add_bare_address_as_host cfg now ip0 p x imp items item e :
  isCIDR ip0 = false ->
  buildItem cfg now ip0 p (Some x) = Normal (inr item) ->
  In e items -> active e = true -> ip e = ip0 +:+ "/32" ->
  _addWorking (ip e) = Normal (working e) ->
  (forall e', In e' items -> active e' = true -> ip e' <> ip0) ->
  WhoIsHelper.subnetMask ip0 = calculateSubnetMask ip0 "32"
  /\ _addWorking ip0 = _addWorking (ip0 +:+ "/32")
  /\ working item = working e
  /\ add cfg now ip0 p (Some x) imp items = Normal (AlreadyCovered, items).
Proof.
  intros Hbare Hb Hin Hact Hip Hwe Hne.
  split; [apply (subnetMask_bare ip0 Hbare)|].
  assert (Hh : hasChar "/" (ip0 +:+ "/32") = true).
  { rewrite hasChar_app. simpl. apply orb_true_r. }
  assert (Hsame : _addWorking ip0 = _addWorking (ip0 +:+ "/32")).
  { unfold _addWorking. unfold isCIDR in Hbare. now rewrite Hbare, Hh. }
  destruct (buildItem_fields _ _ _ _ _ _ Hb) as (Hiip & _ & _ & _ & _ & _ & Hw).
  assert (Hww : working item = working e).
  { rewrite Hip, <- Hsame, Hw in Hwe. now injection Hwe. }
  split; [exact Hsame|]. split; [exact Hww|].
  unfold add. rewrite Hb.
  rewrite (isAlreadyPresent_Covered item items); [reflexivity | |].
  - now rewrite Hiip.
  - exists e. repeat split; auto. rewrite Hww. unfold contains.
    now rewrite !Z.leb_refl.
Qed.

Lemma add_bare_address_as_host_witness :
  WhoIsHelper.subnetMask "10.0.0.5" = calculateSubnetMask "10.0.0.5" "32"
  /\ _addWorking "10.0.0.5" = _addWorking ("10.0.0.5" +:+ "/32")
  /\ working (host "10.0.0.5" None 167772165)
     = working (host "10.0.0.5/32" None 167772165)
  /\ add cfgSsh 0 "10.0.0.5" None (Some noExtra) false
       [host "10.0.0.5/32" None 167772165]
     = Normal (AlreadyCovered, [host "10.0.0.5/32" None 167772165]).
Proof.
  apply (add_bare_address_as_host cfgSsh 0 "10.0.0.5" None noExtra false
           [host "10.0.0.5/32" None 167772165]
           (host "10.0.0.5" None 167772165)
           (host "10.0.0.5/32" None 167772165)).
  - reflexivity.
  - vm_compute. reflexivity.
  - left. reflexivity.
  - reflexivity.
  - reflexivity.
  - vm_compute. reflexivity.
  - intros e' [<-|[]] _ H. discriminate H.
Defined.

(** ** Validation of the port group and its reason *)

(** X20.  For a named port-scope [add] checks the port group before it
    reads the address: a name that [cfg.ports] neither lists nor inherits
    ends the call with [UnknownPortGroup], and a listed group whose
    default reason (an index other than [0] and [-1]) has no text in
    [cfg.reasons] ends it with [UnknownReason] when the metadata gives no
    reason; in both cases the list is left as it was, whatever the
    address text.  In the candidate the reason of the metadata comes
    first, then the text of the group's default reason; a default reason
    of index [0] is never applied.  A name that is only inherited, such
    as [toString], passes as a group without default reason. *)
Theorem add_port_group_validation cfg now ip0 g x imp items :
  g <> EmptyString ->
  (getProperty (cfg_ports cfg) g = Missing ->
   add cfg now ip0 (Some g) (Some x) imp items
   = Normal (UnknownPortGroup, items))
  /\ (forall pd r,
        cfg_ports cfg !! g = Some pd -> pd_reason pd = Some r ->
        r <> 0 -> r <> -1 ->
        truthyS (x_reason x) = false -> truthyS (reasonAt cfg r) = false ->
        add cfg now ip0 (Some g) (Some x) imp items
        = Normal (UnknownReason, items))
  /\ (forall pd item,
        cfg_ports cfg !! g = Some pd ->
        buildItem cfg now ip0 (Some g) (Some x) = Normal (inr item) ->
        (truthyS (x_reason x) = true -> reason item = x_reason x)
        /\ (truthyS (x_reason x) = false ->
            forall r, pd_reason pd = Some r -> r <> 0 -> r <> -1 ->
                      reason item = reasonAt cfg r
                      /\ truthyS (reason item) = true)
        /\ (truthyS (x_reason x) = false ->
            pd_reason pd = None \/ pd_reason pd = Some 0
            \/ pd_reason pd = Some (-1) ->
            reason item = None))
  /\ (getProperty (cfg_ports cfg) g = Inherited ->
      (forall w, _addWorking ip0 = Normal w ->
         exists item, buildItem cfg now ip0 (Some g) (Some x) = Normal (inr item)
                      /\ ports item = Some g)
      /\ (forall item,
            buildItem cfg now ip0 (Some g) (Some x) = Normal (inr item) ->
            reason item = (if truthyS (x_reason x) then x_reason x else None))).
Proof.
  intros Hg.
  assert (Htg : truthyS (Some g) = true).
  { simpl. apply negb_true_iff, String.eqb_neq. exact Hg. }
  split; [|split; [|split]].
  - intros Hnone. unfold add, buildItem. now rewrite Htg, Hnone.
  - intros pd r Hpd Hr Hr0 Hr1 Hx Hnone. unfold add, buildItem, getProperty.
    apply Z.eqb_neq in Hr0, Hr1.
    rewrite Htg, Hpd, Hr. unfold truthyN at 1. rewrite Hr0. simpl.
    rewrite Hr1, Hx. simpl. rewrite Hnone. reflexivity.
  - intros pd item Hpd Hb. unfold buildItem, getProperty in Hb.
    rewrite Htg, Hpd in Hb. split; [|split].
    + intros Hx. rewrite Hx in Hb.
      destruct (truthyN (pd_reason pd)); simpl in Hb;
        rewrite ?andb_false_r in Hb; simpl in Hb;
        (destruct (_addWorking ip0); [|discriminate]);
        injection Hb as <-; simpl; now rewrite Hx.
    + intros Hx r Hr Hr0 Hr1. apply Z.eqb_neq in Hr0, Hr1.
      rewrite Hr in Hb. unfold truthyN at 1 in Hb. rewrite Hr0 in Hb.
      simpl in Hb. rewrite Hr1, Hx in Hb. simpl in Hb.
      destruct (truthyS (reasonAt cfg r)) eqn:Ht; simpl in Hb;
        [|discriminate].
      destruct (_addWorking ip0); [|discriminate].
      injection Hb as <-. simpl. now rewrite Ht.
    + intros Hx Hcases.
      assert (Hm : (if truthyN (pd_reason pd)
                    then inr (default (-1) (pd_reason pd))
                    else inr (-1)) = (inr (-1) : Outcome + Z)).
      { destruct Hcases as [->|[->| ->]]; reflexivity. }
      rewrite Hm in Hb. simpl in Hb.
      destruct (_addWorking ip0); [|discriminate].
      injection Hb as <-. simpl. now rewrite Hx.
  - intros Hinh. split.
    + intros w Hw. unfold buildItem. rewrite Htg, Hinh, Hw. simpl. eauto.
    + intros item Hb. unfold buildItem in Hb. rewrite Htg, Hinh in Hb.
      simpl in Hb. destruct (_addWorking ip0); [|discriminate].
      injection Hb as <-. simpl. now destruct (truthyS (x_reason x)).
Qed.

Lemma add_port_group_validation_witness :
  add cfgSsh 0 "not an address" (Some "web") (Some noExtra) false
    [host "10.0.0.5" None 167772165]
  = Normal (UnknownPortGroup, [host "10.0.0.5" None 167772165])
  /\ exists item,
       buildItem cfgSsh 0 "10.0.0.9" (Some "toString") (Some noExtra)
       = Normal (inr item)
       /\ ports item = Some "toString".
Proof.
  split.
  - apply (proj1 (add_port_group_validation cfgSsh 0 "not an address" "web"
                    noExtra false [host "10.0.0.5" None 167772165]
                    ltac:(discriminate))).
    vm_compute. reflexivity.
  - apply (proj1 (proj2 (proj2 (proj2
             (add_port_group_validation cfgSsh 0 "10.0.0.9" "toString"
                noExtra false [] ltac:(discriminate))))
             ltac:(vm_compute; reflexivity))
             (mkWorking 167772169 167772169)).
    vm_compute. reflexivity.
Defined.

(** ** The warnings of the redundancy step *)

(** X21.  Every active record of another address that the redundancy
    step drops is announced by the greater-scope-of-range warning.  For
    an active record of the candidate's own address, which is always
    dropped, the greater-scope-of-ports warning is issued exactly when
    the candidate is unscoped and the record scoped: a record held under
    one port group is dropped without a word by a candidate for another
    group. *)
Theorem redundancy_warnings (item : Item) (items : list Item) (e : Item) :
  In e items -> active e = true ->
  (ip e <> ip item ->
   (survives item e = false
    <-> In (GreaterScopeOfRange e) (redundancyWarnings item items)))
  /\ (ip e = ip item ->
      survives item e = false
      /\ (In (GreaterScopeOfPorts e) (redundancyWarnings item items)
          <-> unscoped (ports item) /\ scoped (ports e))).
Proof.
  intros Hin Hact.
  assert (Hrange : forall l,
    In (GreaterScopeOfRange e) (redundancyWarnings item l)
    -> ip e <> ip item
       /\ contains (working item) (working e)
          && (isNull (ports item) || looseEq (ports item) (ports e)) = true).
  { induction l as [|entry rest IH]; simpl; [tauto|].
    rewrite in_app_iff, contains_test_rev. intros [H|H]; [|now apply IH].
    destruct (String.eqb (ip item) (ip entry)) eqn:Hip.
    - destruct (negb (truthyS (ports item)) && truthyS (ports entry));
        simpl in H; [destruct H as [H|[]]; discriminate H|].
      destruct H.
    - destruct (contains (working item) (working entry)) eqn:Hc;
        [|destruct H].
      destruct (isNull (ports item) || looseEq (ports item) (ports entry))
        eqn:Hp; [|destruct H].
      destruct H as [[= ->]|[]]. apply String.eqb_neq in Hip.
      split; [congruence|]. now rewrite Hc, Hp. }
  assert (Hports : forall l,
    In (GreaterScopeOfPorts e) (redundancyWarnings item l)
    -> truthyS (ports item) = false /\ truthyS (ports e) = true).
  { induction l as [|entry rest IH]; simpl; [tauto|].
    rewrite in_app_iff. intros [H|H]; [|now apply IH].
    destruct (String.eqb (ip item) (ip entry)).
    - destruct (truthyS (ports item)) eqn:Hp; simpl in H; [destruct H|].
      destruct (truthyS (ports entry)) eqn:Hq; simpl in H; [|destruct H].
      destruct H as [[= ->]|[]]. auto.
    - repeat case_match; simpl in H; try tauto;
        destruct H as [H|[]]; discriminate H. }
  split.
  - intros Hne. unfold survives. rewrite Hact. simpl.
    assert (Hip : String.eqb (ip item) (ip e) = false)
      by (apply String.eqb_neq; congruence).
    rewrite Hip. simpl. rewrite negb_false_iff. split.
    + intros Hdrop. clear Hrange Hports.
      induction items as [|entry rest IH]; [destruct Hin|].
      simpl. apply in_or_app. destruct Hin as [->|Hin]; [left | right; auto].
      rewrite Hip, contains_test_rev.
      apply andb_true_iff in Hdrop. destruct Hdrop as [-> ->]. now left.
    + intros H. now apply (Hrange items).
  - intros Hip. split.
    + unfold survives. now rewrite Hip, String.eqb_refl, andb_false_r.
    + split; [apply Hports|]. intros [Hu Hs].
      now apply redundancyWarnings_ports.
Qed.

Lemma redundancy_warnings_witness :
  (ip (block "10.0.0.0/24" None 167772160 167772415)
   <> ip (block "10.0.0.0/16" None 167772160 167837695) ->
   (survives (block "10.0.0.0/16" None 167772160 167837695)
             (block "10.0.0.0/24" None 167772160 167772415) = false
    <-> In (GreaterScopeOfRange (block "10.0.0.0/24" None 167772160 167772415))
           (redundancyWarnings (block "10.0.0.0/16" None 167772160 167837695)
              [block "10.0.0.0/24" None 167772160 167772415])))
  /\ (ip (block "10.0.0.0/24" None 167772160 167772415)
      = ip (block "10.0.0.0/16" None 167772160 167837695) ->
      survives (block "10.0.0.0/16" None 167772160 167837695)
               (block "10.0.0.0/24" None 167772160 167772415) = false
      /\ (In (GreaterScopeOfPorts (block "10.0.0.0/24" None 167772160 167772415))
             (redundancyWarnings (block "10.0.0.0/16" None 167772160 167837695)
                [block "10.0.0.0/24" None 167772160 167772415])
          <-> unscoped (ports (block "10.0.0.0/16" None 167772160 167837695))
              /\ scoped (ports (block "10.0.0.0/24" None 167772160 167772415)))).
Proof.
  apply (redundancy_warnings (block "10.0.0.0/16" None 167772160 167837695)
           [block "10.0.0.0/24" None 167772160 167772415]).
  - left. reflexivity.
  - reflexivity.
Defined.

(** ** Sweeping, then inserting again *)

(** X22.  Without [expireDeletes], once a sweep has expired a record,
    a call of [add] for its address and port-scope that goes through
    restores a record instead of appending one. *)
Theorem add_after_sweep_restores cfg now items e cfg' now' extra imp o items' :
  expireDeletes cfg = false ->
  In e items -> due cfg now e = true ->
  add cfg' now' (ip e) (ports e) extra imp
    (fst (removeExpired cfg (fun _ => now) items)) = Normal (o, items') ->
  o = Inserted \/ o = Reactivated ->
  o = Reactivated.
Proof.
  intros Hsoft Hin Hdue Hadd Ho.
  apply (add_restore_cases _ _ _ _ _ _ _ _ _ Hadd Ho).
  exists (expire now e). rewrite removeExpired_at, Hsoft. simpl.
  repeat split; [|apply scopeExact_refl].
  apply in_map_iff. exists e. now rewrite Hdue.
Qed.

Lemma add_after_sweep_restores_witness : Reactivated = Reactivated.
Proof.
  apply (add_after_sweep_restores cfgSsh (t_2021_02_21 + 3 * 86400000)
           [test9Record 0] (test9Record 0) cfgSsh 0 (Some noExtra) false
           Reactivated
           [restore (test9Record (t_2021_02_21 + 3 * 86400000))
              (host "3.0.115.255" None 50361343)]).
  - reflexivity.
  - left. reflexivity.
  - vm_compute. reflexivity.
  - vm_compute. reflexivity.
  - right. reflexivity.
Defined.

(** ** The export *)

Lemma csfLoop_known cfg (l : list Item) :
  groupsKnown cfg l -> csfLoop cfg l = Some (List.filter active l).
Proof.
  induction l as [|item rest IH]; intros Hk; simpl; [reflexivity|].
  assert (Hrest : csfLoop cfg rest = Some (List.filter active rest)).
  { apply IH. intros e He. apply Hk. now right. }
  unfold active at 1. destruct (truthyN (status item)) eqn:Hst; simpl;
    [exact Hrest|].
  destruct (truthyS (ports item)) eqn:Hp; simpl; [|now rewrite Hrest].
  destruct (ports item) as [g|] eqn:Hg; [|discriminate].
  assert (Hsome : getProperty (cfg_ports cfg) g <> Missing).
  { apply (Hk item (or_introl eq_refl)); [|exact Hg|now rewrite Hg].
    unfold active. now rewrite Hst. }
  destruct (getProperty (cfg_ports cfg) g); try congruence;
    simpl; now rewrite Hrest.
Qed.

Lemma csfLoop_unknown cfg (l : list Item) (e : Item) (g : string) :
  In e l -> active e = true -> ports e = Some g ->
  truthyS (ports e) = true -> getProperty (cfg_ports cfg) g = Missing ->
  csfLoop cfg l = None.
Proof.
  intros Hin Hact Hg Hp Hnone.
  induction l as [|item rest IH]; simpl; [destruct Hin|].
  destruct Hin as [->|Hin].
  - unfold active in Hact. apply negb_true_iff in Hact.
    now rewrite Hact, Hp, Hg, Hnone.
  - rewrite (IH Hin). destruct (truthyN (status item)); [reflexivity|].
    now destruct (_ && _).
Qed.

(** X23.  On a list whose active records all have a line that can be
    composed, [doPrintCsf] exports the active records in sorted order,
    provided every active record that names a port group names one the
    lookup of [cfg.ports] finds (an entry, or an inherited name such as
    [toString]); a single active record with a group the lookup does not
    find makes the function return before anything is printed or
    written.  Under one configuration [add] keeps the proviso on the
    groups, so an export after insertions does not fail on their
    account. *)
Theorem doPrintCsf_exports :
  (forall cfg items,
      groupsKnown cfg items ->
      (forall e, In e items -> active e = true -> datable cfg e) ->
      doPrintCsf cfg items
      = (sortByIP items, Some (List.filter active (sortByIP items))))
  /\ (forall cfg items e g,
        (forall a, In a items -> active a = true -> datable cfg a) ->
        In e items -> active e = true -> ports e = Some g ->
        truthyS (ports e) = true -> getProperty (cfg_ports cfg) g = Missing ->
        snd (doPrintCsf cfg items) = None)
  /\ (forall cfg s now ip0 p extra imp o s',
        groupsKnown cfg (Shared.contents s) ->
        Shared.add cfg now ip0 p extra imp s = Normal (o, s') ->
        groupsKnown cfg (Shared.contents s')).
Proof.
  split; [|split].
  - intros cfg items Hk _. unfold doPrintCsf. f_equal.
    apply csfLoop_known. intros e He. apply Hk. now apply sortByIP_In.
  - intros cfg items e g _ Hin Hact Hg Hp Hnone. unfold doPrintCsf. simpl.
    apply (csfLoop_unknown cfg _ e g); auto. now apply sortByIP_In.
  - intros cfg s now ip0 p extra imp o s' Hk Hadd.
    assert (Hcases : (o = Inserted \/ o = Reactivated)
                     \/ (o <> Inserted /\ o <> Reactivated))
      by (destruct o; auto; right; split; discriminate).
    destruct Hcases as [Ho|[Hi Hr]];
      [|now rewrite (shared_add_refused _ _ _ _ _ _ _ _ _ Hadd Hi Hr)].
    destruct (shared_add_cells _ _ _ _ _ _ _ _ _ Hadd Ho)
      as (x & item & ob & r & -> & Hb & _ & Hcells & _ & _ & _ & _ & Hcase).
    destruct (buildItem_fields _ _ _ _ _ _ Hb) as (Hip & Hp & _).
    assert (Hitem : groupKnown cfg item).
    { intros g Hg Ht. rewrite Hp in Hg, Ht. rewrite Hg in Ht.
      unfold buildItem in Hb. rewrite Hg, Ht in Hb.
      destruct (getProperty (cfg_ports cfg) g);
        [discriminate | discriminate | simpl in Hb; discriminate]. }
    intros e He Ha. apply shared_contents_In in He.
    destruct He as (c & Hc & <-).
    apply Hcells in Hc. destruct Hc as [->|[Hc _]]; simpl.
    + destruct Hcase as [(_ & -> & _)|(_ & tmp & _ & _ & _ & _ & Hsc & -> & _)];
        [exact Hitem|].
      intros g Hg Ht. simpl in Hg, Ht.
      destruct (ports item) as [q|] eqn:Hq.
      * apply Hitem; [now rewrite Hq | ]. now rewrite Hq.
      * rewrite <- Hp in Hsc.
        destruct Hsc as [[_ Hu]|(Hs & _)]; [|discriminate Hs].
        unfold unscoped in Hu. congruence.
    + apply Hk; [|exact Ha]. apply shared_contents_In.
      exists c. split; [|reflexivity].
      now apply (shared_checkRedundancies_In item).
Qed.

(** The first part on a list of two active records, one of them held
    under the inherited name [toString]: both are exported. *)
Lemma doPrintCsf_exports_witness :
  doPrintCsf cfgSsh
    [host "10.0.0.9" (Some "toString") 167772169;
     host "10.0.0.5" None 167772165]
  = ([host "10.0.0.5" None 167772165;
      host "10.0.0.9" (Some "toString") 167772169],
     Some [host "10.0.0.5" None 167772165;
           host "10.0.0.9" (Some "toString") 167772169]).
Proof.
  rewrite (proj1 doPrintCsf_exports cfgSsh
             [host "10.0.0.9" (Some "toString") 167772169;
              host "10.0.0.5" None 167772165]).
  - vm_compute. reflexivity.
  - intros e [<-|[<-|[]]] _ g; simpl; intros [= <-] _.
    vm_compute. discriminate.
  - intros e [<-|[<-|[]]] _; (split; [intros c; discriminate|]);
      vm_compute; repeat split; discriminate.
Defined.
